(** * Teaching notebooks: naive Bayes scoring and GP-based sequential optimisation

    A shallow embedding of the numeric cells of the two notebooks
    - [5 - Naive Bayes Classification/Naive Bayes Classification_eleve.ipynb]
    - [7 - Surrogate based optimization/GP Regression.ipynb]
    over the real numbers.  numpy's float64 arithmetic is idealised to exact
    real arithmetic; a numpy array of rank one is a [list R], an array of rank
    two is the list of its rows.  Operations that raise in Python (shape
    mismatch, [argmin] of an empty sequence) return [None].  Division and
    logarithm are total on [R] ([x / 0 = 0], [ln x = 0] for [x <= 0]) where
    numpy yields [inf] or [nan]; the statements carry the hypotheses that
    keep every divisor non-zero and every logarithm's argument positive. *)

From Stdlib Require Import Reals Lra Lia List Bool Arith.
Import ListNotations.
Open Scope R_scope.

(** ** A small error monad for Python exceptions *)

Definition bind {A B : Type} (m : option A) (k : A -> option B) : option B :=
  match m with
  | Some a => k a
  | None => None
  end.

Notation "x <- m ;; k" := (bind m (fun x => k))
  (at level 61, m at next level, right associativity).

(** A list comprehension whose body may raise. *)
Fixpoint mapM {A B : Type} (f : A -> option B) (l : list A) : option (list B) :=
  match l with
  | [] => Some []
  | a :: t => b <- f a ;; bs <- mapM f t ;; Some (b :: bs)
  end.

(** ** numpy primitives *)

Module Np.

(** Arrays of rank one and two. *)
Abbreviation array1 := (list R) (only parsing).
Abbreviation array2 := (list (list R)) (only parsing).

(** [np.sum] of a rank-one array. *)
Definition sum (a : array1) : R := fold_right Rplus 0 a.

(** [np.mean]: the sum divided by the number of elements. *)
Definition mean (a : array1) : R := sum a / INR (length a).

(** [np.std] with its default [ddof=0]:
    [sqrt(mean(abs(a - a.mean())**2))]. *)
Definition std (a : array1) : R :=
  sqrt (mean (map (fun x => (Rabs (x - mean a)) ^ 2) a)).

Fixpoint zip_with (f : R -> R -> R) (a b : array1) : array1 :=
  match a, b with
  | x :: a', y :: b' => f x y :: zip_with f a' b'
  | _, _ => []
  end.

(** Element-wise binary operation on two rank-one arrays with numpy's
    broadcasting rule: equal lengths are combined point-wise, a
    one-element array is stretched, anything else is a [ValueError]. *)
Definition broadcast (f : R -> R -> R) (a b : array1) : option array1 :=
  if Nat.eqb (length a) (length b) then Some (zip_with f a b)
  else if Nat.eqb (length b) 1 then Some (map (fun x => f x (nth 0 b 0)) a)
  else if Nat.eqb (length a) 1 then Some (map (fun y => f (nth 0 a 0) y) b)
  else None.

(** The shapes [(n,)] and [(m,)] that numpy accepts together. *)
Definition broadcastable (n m : nat) : Prop :=
  n = m \/ m = 1%nat \/ n = 1%nat.

(** [a ** 2] on a rank-one array. *)
Definition square (a : array1) : array1 := map (fun x => x ^ 2) a.

(** [np.zeros((n, m))]. *)
Definition zeros (n m : nat) : array2 := repeat (repeat 0 m) n.

Fixpoint set_nth (l : array1) (i : nat) (v : R) : array1 :=
  match l, i with
  | [] , _ => []
  | _ :: t, O => v :: t
  | x :: t, S i' => x :: set_nth t i' v
  end.

Fixpoint set_col_rows (K : array2) (i : nat) (v : array1) : array2 :=
  match K, v with
  | row :: K', x :: v' => set_nth row i x :: set_col_rows K' i v'
  | _, _ => K
  end.

(** [K[:, i] = v]: an [IndexError] when column [i] does not exist, a
    [ValueError] when [v] has not one value per row. *)
Definition set_col (K : array2) (i : nat) (v : array1) : option array2 :=
  if Nat.eqb (length v) (length K)
     && forallb (fun row => Nat.ltb i (length row)) K
  then Some (set_col_rows K i v)
  else None.

(** [K[i, j]]. *)
Definition entry (K : array2) (i j : nat) : option R :=
  row <- nth_error K i ;; nth_error row j.

(** [enumerate]. *)
Fixpoint enumerate_from {A : Type} (k : nat) (l : list A) : list (nat * A) :=
  match l with
  | [] => []
  | a :: t => (k, a) :: enumerate_from (S k) t
  end.

Definition enumerate {A : Type} (l : list A) : list (nat * A) :=
  enumerate_from 0 l.

(** [np.dot] of two rank-one arrays. *)
Definition dot (a b : array1) : R := sum (zip_with Rmult a b).

(** [M[:, j]]. *)
Definition col (j : nat) (M : array2) : array1 :=
  map (fun row => nth j row 0) M.

Definition ncols (M : array2) : nat :=
  match M with
  | [] => O
  | row :: _ => length row
  end.

(** [np.dot(v, M)] for a rank-one [v]: one dot product per column of [M]. *)
Definition vec_mat (v : array1) (M : array2) : array1 :=
  map (fun j => dot v (col j M)) (seq 0 (ncols M)).

(** [np.dot(A, B)] for two matrices. *)
Definition mat_mul (A B : array2) : array2 :=
  map (fun row => vec_mat row B) A.

(** [np.eye(n)]. *)
Definition eye (n : nat) : array2 :=
  map (fun i => map (fun j => if Nat.eqb i j then 1 else 0) (seq 0 n))
      (seq 0 n).

(** A matrix with [n] rows of [n] entries each. *)
Definition square_shape (n : nat) (K : array2) : Prop :=
  length K = n /\ Forall (fun row => length row = n) K.

End Np.

(** ** The normal law of [scipy.stats.norm] *)

Module Scipy.

(** Density of the standard normal law: [exp(-x**2/2) / sqrt(2*pi)]. *)
Definition norm_pdf_std (x : R) : R := exp (- x ^ 2 / 2) / sqrt (2 * PI).

(** Its logarithm as scipy computes it: [-x**2/2 - log(2*pi)/2]. *)
Definition norm_logpdf_std (x : R) : R := - x ^ 2 / 2 - ln (2 * PI) / 2.

(** [norm.pdf(x, loc, scale)]: the standard density at [(x - loc) / scale],
    divided by [scale]. *)
Definition norm_pdf (x loc scale : R) : R :=
  norm_pdf_std ((x - loc) / scale) / scale.

(** [norm.logpdf(x, loc, scale)]: the standard log-density at
    [(x - loc) / scale], minus [log(scale)]. *)
Definition norm_logpdf (x loc scale : R) : R :=
  norm_logpdf_std ((x - loc) / scale) - ln scale.

End Scipy.

(** A point of the input space: one row of [x_data]. *)
Abbreviation Point := (list R) (only parsing).

(** ** GP Regression notebook: the squared-exponential kernel *)

Module GP.

(** [cov_function(point_1, point_2, theta, sig)]:
<<
      dist = (point_1-point_2)**2
      k_12 = (sig**2) * np.exp(- np.sum(dist / theta**2))
>> *)
Definition cov_function (point_1 point_2 : Point) (theta : Np.array1)
    (sig : R) : option R :=
  diff <- Np.broadcast Rminus point_1 point_2 ;;
  let dist := Np.square diff in
  q <- Np.broadcast Rdiv dist (Np.square theta) ;;
  Some (sig ^ 2 * exp (- Np.sum q)).

(** The value of the kernel where [cov_function] does not raise. *)
Definition kernel_of (theta : Np.array1) (sig : R) (p q : Point) : R :=
  match cov_function p q theta sig with
  | Some v => v
  | None => 0
  end.

(** The body of the [for i, point in enumerate(points)] loop of
    [cov_matrix], threaded through the matrix [K] under construction. *)
Fixpoint cov_matrix_loop (todo : list (nat * Point)) (points : list Point)
    (theta : Np.array1) (sig : R) (K : Np.array2) : option Np.array2 :=
  match todo with
  | [] => Some K
  | (i, point) :: rest =>
      col <- mapM (fun point_1 => cov_function point point_1 theta sig)
                  points ;;
      K' <- Np.set_col K i col ;;
      cov_matrix_loop rest points theta sig K'
  end.

(** [cov_matrix(points, theta, sig)]. *)
Definition cov_matrix (points : list Point) (theta : Np.array1) (sig : R)
    : option Np.array2 :=
  let size0 := length points in
  cov_matrix_loop (Np.enumerate points) points theta sig
                  (Np.zeros size0 size0).

(** [cov_vect(point, points, theta, sig)]. *)
Definition cov_vect (point : Point) (points : list Point)
    (theta : Np.array1) (sig : R) : option Np.array1 :=
  mapM (fun point_1 => cov_function point point_1 theta sig) points.

(** Squared Euclidean distance, the [||x - x'||^2] of the kernel formula. *)
Fixpoint sqdist (x x' : Point) : R :=
  match x, x' with
  | a :: x1, b :: x1' => (a - b) ^ 2 + sqdist x1 x1'
  | _, _ => 0
  end.

(** The kernel as the text of the notebook states it. *)
Definition se_kernel (l sigma_f : R) (x x' : Point) : R :=
  sigma_f ^ 2 * exp (- sqdist x x' / l ^ 2).

(** [K_inv] is the inverse of the [n] by [n] matrix [K], as
    [np.linalg.inv(K)] returns it for an invertible [K]. *)
Definition is_inverse (n : nat) (K K_inv : Np.array2) : Prop :=
  Np.mat_mul K K_inv = Np.eye n /\ Np.mat_mul K_inv K = Np.eye n.

(** Modelled from the spec: [myGPpredict(x_t, x_data, y_data, K_inv, theta,
    sig)], whose body is loaded from [solutions/code1.py] and is not part of
    the sources.  The spec gives the prediction as the mean
    [mu(x) = k_star(x) . K^{-1} . y] and the variance
    [sigma2(x) = k(x,x) - k_star(x) . K^{-1} . k_star(x)^T], where [k_star(x)]
    is the vector of kernel evaluations between [x] and every stored point;
    the kernel and the vector are the notebook's own [cov_function] and
    [cov_vect]. *)
Definition myGPpredict (x_t : Point) (x_data : list Point)
    (y_data : Np.array1) (K_inv : Np.array2) (theta : Np.array1) (sig : R)
    : option (R * R) :=
  k_star <- cov_vect x_t x_data theta sig ;;
  k_xx <- cov_function x_t x_t theta sig ;;
  let w := Np.vec_mat k_star K_inv in
  Some (Np.dot w y_data, k_xx - Np.dot w k_star).

End GP.

(** ** GP Regression notebook: choice among the multi-start optimisations *)

Module HyperOpt.

(** The fields of scipy's [OptimizeResult] that the cell reads:
    [opt_i['success']], [opt_i['fun']] and [opt_i['x']]. *)
Record OptimizeResult : Type := mkOpt {
  success : bool;
  fun_ : R;
  x : list R
}.

(** [np.argmin] scans from the left and keeps the first smallest value;
    [best_i] and [best] are the index and value kept so far, [i] the index
    of the head of the rest. *)
Fixpoint argmin_from (best_i : nat) (best : R) (i : nat) (l : list R) : nat :=
  match l with
  | [] => best_i
  | v :: t =>
      if Rlt_dec v best then argmin_from i v (S i) t
      else argmin_from best_i best (S i) t
  end.

(** [np.argmin]: a [ValueError] on an empty sequence. *)
Definition argmin (l : list R) : option nat :=
  match l with
  | [] => None
  | v :: t => Some (argmin_from 0 v 1 t)
  end.

(** The selection cell:
<<
      opt_success = opt_all[[opt_i['success'] for opt_i in opt_all]]
      obj_success = np.array([opt_i['fun'] for opt_i in opt_success])
      ind_min = np.argmin(obj_success)
      opt = opt_success[ind_min]
      theta_et = opt['x']
>>
    [opt_all], the results of the runs started from [theta_start], is
    produced by a cell that is not part of the sources and is an input
    here. *)
Definition select_opt (opt_all : list OptimizeResult) : option OptimizeResult :=
  let opt_success := filter success opt_all in
  let obj_success := map fun_ opt_success in
  ind_min <- argmin obj_success ;;
  nth_error opt_success ind_min.

Definition theta_et (opt_all : list OptimizeResult) : option (list R) :=
  opt <- select_opt opt_all ;; Some (x opt).

End HyperOpt.

(** ** GP Regression notebook: Expected Improvement and the EGO loop *)

Module EGO.

(** The two predictions of a surrogate that the acquisition functions read. *)
Record Surrogate : Type := mkSurrogate {
  mu : Point -> R;
  sigma : Point -> R
}.

(** Division that records a zero divisor: [None] stands for Python's
    [ZeroDivisionError] and for the [nan] or [inf] of numpy. *)
Definition checked_div (a b : R) : option R :=
  if Req_dec_T b 0 then None else Some (a / b).

(** [np.min]: a [ValueError] on an empty array. *)
Definition np_min (a : list R) : option R :=
  match a with
  | [] => None
  | v :: t => Some (fold_left Rmin t v)
  end.

(** A design of experiments: the sampled points [X] and the observed
    values [Y], and the counter [i] of the loop. *)
Record DoE : Type := mkDoE {
  X : list Point;
  Y : list R;
  i : nat
}.

(** Result of running the loop with a bound on the number of passes. *)
Inductive outcome : Type :=
| Done (D : DoE)
| Raised
| OutOfFuel.

(** The surrogate that predicts with [myGPpredict]: its standard deviation
    is the square root of the predicted variance. *)
Definition gp_surrogate (x_data : list Point) (y_data : list R)
    (K_inv : list (list R)) (theta : list R) (sig : R) : Surrogate :=
  {| mu := fun x_t =>
             match GP.myGPpredict x_t x_data y_data K_inv theta sig with
             | Some (m, _) => m
             | None => 0
             end;
     sigma := fun x_t =>
                match GP.myGPpredict x_t x_data y_data K_inv theta sig with
                | Some (_, v) => sqrt v
                | None => 0
                end |}.

Section Loop.

(** [norm_cdf] is the distribution function of the standard normal law
    ([scipy.stats.norm.cdf]), an external collaborator of the notebook. *)
Variable norm_cdf : R -> R.

(** Modelled from the spec: [EI(gpr, points, f_min)], whose body is loaded
    from [solutions/code6.py] and is not part of the sources.  The spec
    gives [EI(x) = (f_min - mu(x)) * Phi(z) + sigma(x) * phi(z)] with
    [z = (f_min - mu(x)) / sigma(x)], defined as 0 when [sigma(x) = 0]. *)
Definition EI_point (GP : Surrogate) (f_min : R) (point : Point) : option R :=
  if Req_dec_T (sigma GP point) 0 then Some 0
  else
    z <- checked_div (f_min - mu GP point) (sigma GP point) ;;
    Some ((f_min - mu GP point) * norm_cdf z
          + sigma GP point * Scipy.norm_pdf_std z).

Definition EI (GP : Surrogate) (points : list Point) (f_min : R)
    : option (list R) :=
  mapM (EI_point GP f_min) points.

(** The collaborators of the loop: the surrogate fit on the current design,
    the maximiser of the acquisition function, and the expensive objective
    [F]. *)
Variable model : list Point -> list R -> Surrogate.
Variable argmax_acquisition : Surrogate -> R -> Point.
Variable F : Point -> R.

(** Modelled from the spec: one pass of the EGO loop, whose code is loaded
    from [solutions/code7.py] and is not part of the sources.  The spec and
    the pseudo-code of the notebook give the pass as: fit the surrogate on
    the design, take [f_min = min Y], select [x_next = argmax] of the
    acquisition, evaluate [y_next = F(x_next)], append the pair to the
    design, and count the pass. *)
Definition ego_pass (D : DoE) : option DoE :=
  let mod_ := model (X D) (Y D) in
  f_min <- np_min (Y D) ;;
  let x_next := argmax_acquisition mod_ f_min in
  let y_next := F x_next in
  Some {| X := X D ++ [x_next]; Y := Y D ++ [y_next]; i := S (i D) |}.

(** Modelled from the spec: the loop [For (i = 0 : n_iter)] around the
    pass; it stops when the counter reaches the budget [n_iter]. *)
Fixpoint ego_loop (fuel : nat) (n_iter : nat) (D : DoE) : outcome :=
  if Nat.leb n_iter (i D) then Done D
  else
    match fuel with
    | O => OutOfFuel
    | S fuel' =>
        match ego_pass D with
        | Some D' => ego_loop fuel' n_iter D'
        | None => Raised
        end
    end.

(** The design after [k] passes. *)
Fixpoint after_passes (k : nat) (D : DoE) : option DoE :=
  match k with
  | O => Some D
  | S k' => D' <- after_passes k' D ;; ego_pass D'
  end.

End Loop.

End EGO.

(** ** Naive Bayes notebook: the Gaussian classifier written by hand *)

Module NB.
Import Scipy.

(** [a[a[:, j] == v]]: the rows of [a] whose column [j] holds [v]. *)
Definition rows_where (j : nat) (v : R) (a : Np.array2) : Np.array2 :=
  filter (fun row => if Req_dec_T (nth j row 0) v then true else false) a.

(** The content of [sex_classif.csv] as the first cell prints it: sex
    (0 male, 1 female), height, weight, foot size. *)
Definition sex_classif : Np.array2 :=
  [ [0; 1.82; 82; 30];
    [0; 1.80; 86; 28];
    [0; 1.70; 77; 30];
    [0; 1.80; 75; 25];
    [1; 1.52; 45; 15];
    [1; 1.65; 68; 20];
    [1; 1.68; 59; 18];
    [1; 1.75; 68; 23];
    [1; 1.58; 49; 19] ].

Section Classifier.

Variable data : Np.array2.

(** Estimate distribution parameters for males. *)
Definition dataM : Np.array2 := rows_where 0 0 data.
Definition mu_HS0 : R := Np.mean (Np.col 1 dataM).
Definition std_HS0 : R := Np.std (Np.col 1 dataM).
Definition mu_WS0 : R := Np.mean (Np.col 2 dataM).
Definition std_WS0 : R := Np.std (Np.col 2 dataM).
Definition mu_FS0 : R := Np.mean (Np.col 3 dataM).
Definition std_FS0 : R := Np.std (Np.col 3 dataM).
Definition pS0 : R := INR (length dataM) / INR (length data).

(** Estimate distribution parameters for females. *)
Definition dataF : Np.array2 := rows_where 0 1 data.
Definition mu_HS1 : R := Np.mean (Np.col 1 dataF).
Definition std_HS1 : R := Np.std (Np.col 1 dataF).
Definition mu_WS1 : R := Np.mean (Np.col 2 dataF).
Definition std_WS1 : R := Np.std (Np.col 2 dataF).
Definition mu_FS1 : R := Np.mean (Np.col 3 dataF).
Definition std_FS1 : R := Np.std (Np.col 3 dataF).
Definition pS1 : R := INR (length dataF) / INR (length data).

(** The input to classify. *)
Variables H W F : R.

Definition score_M : R :=
  pS0 * norm_pdf H mu_HS0 std_HS0 * norm_pdf W mu_WS0 std_WS0
      * norm_pdf F mu_FS0 std_FS0.

Definition score_F : R :=
  pS1 * norm_pdf H mu_HS1 std_HS1 * norm_pdf W mu_WS1 std_WS1
      * norm_pdf F mu_FS1 std_FS1.

(** The two probabilities that the cell prints. *)
Definition proba_M : R := score_M / (score_M + score_F).
Definition proba_F : R := score_F / (score_M + score_F).

Definition log_score_M : R :=
  ln pS0 + norm_logpdf H mu_HS0 std_HS0 + norm_logpdf W mu_WS0 std_WS0
         + norm_logpdf F mu_FS0 std_FS0.

Definition log_score_F : R :=
  ln pS1 + norm_logpdf H mu_HS1 std_HS1 + norm_logpdf W mu_WS1 std_WS1
         + norm_logpdf F mu_FS1 std_FS1.

End Classifier.

(** The estimates are defined: each class has at least one record and no
    feature is constant within a class.  Elsewhere numpy divides by zero and
    the scores are [nan]. *)
Definition estimable (data : Np.array2) : Prop :=
  dataM data <> [] /\ dataF data <> []
  /\ std_HS0 data <> 0 /\ std_WS0 data <> 0 /\ std_FS0 data <> 0
  /\ std_HS1 data <> 0 /\ std_WS1 data <> 0 /\ std_FS1 data <> 0.

(** *** The scorer for any number of classes and features *)

(** [score(c) = prior(c) * prod_i p(x_i | c)], multiplied from the left as
    the cell does. *)
Definition score (prior : R) (densities : list R) : R :=
  fold_left Rmult densities prior.

(** [log_score(c) = log(prior(c)) + sum_i log p(x_i | c)]. *)
Definition log_score (prior : R) (densities : list R) : R :=
  fold_left Rplus (map ln densities) (ln prior).

(** Each class score divided by the sum of all class scores. *)
Definition posterior (scores : list R) : list R :=
  map (fun s => s / Np.sum scores) scores.

(** [np.max] of the log-scores ([0] for no class at all). *)
Definition max_of (a : list R) : R :=
  match a with
  | [] => 0
  | v :: t => fold_left Rmax t v
  end.

(** The posterior as the spec words it (the notebook itself only normalises
    the product scores): exponentiate each log-score relative to the largest
    one, then normalise to sum to 1. *)
Definition posterior_softmax (log_scores : list R) : list R :=
  let m := max_of log_scores in
  let e := map (fun l => exp (l - m)) log_scores in
  map (fun v => v / Np.sum e) e.

End NB.

(** ** GP Regression notebook: the objective function *)

Module Objective.

(** [fun(point)] at one coordinate:
    [(point-3.5)*np.sin((point-3.5)/(np.pi))]; on an array numpy applies
    the expression to every coordinate. *)
Definition fun_ (point : R) : R :=
  (point - 3.5) * sin ((point - 3.5) / PI).

End Objective.

(** ** Naive Bayes notebook: evaluation of a fitted classifier *)

Module Eval.

(** Element-wise binary operation on two rank-one arrays of any element
    type, with numpy's broadcasting rule as in [Np.broadcast]. *)
Definition broadcast2 {A B C : Type} (f : A -> B -> C) (a : list A)
    (b : list B) : option (list C) :=
  if Nat.eqb (length a) (length b) then Some (map (fun '(x, y) => f x y) (combine a b))
  else
    match b, a with
    | [y], _ => Some (map (fun x => f x y) a)
    | _, [x] => Some (map (fun y => f x y) b)
    | _, _ => None
    end.

(** [a[mask]] and [a[mask, :]] for a boolean [mask]: an [IndexError] when
    the mask has not one entry per row of [a]. *)
Definition mask_select {A : Type} (a : list A) (mask : list bool)
    : option (list A) :=
  if Nat.eqb (length mask) (length a)
  then Some (map fst (filter snd (combine a mask)))
  else None.

(** [[i for i, j in enumerate(misclass) if j == True]]. *)
Definition indices_where (misclass : list bool) : list nat :=
  map fst (filter (fun '(_, j) => Bool.eqb j true) (Np.enumerate misclass)).

(** [np.sum] of a boolean array: the number of [True]. *)
Definition count_true (a : list bool) : nat := length (filter (fun j => j) a).

Section Labels.

(** Class labels (booleans for the spam data, digits for NIST) with the
    equality test of numpy, and the rows of a feature matrix. *)
Variables label row : Type.
Variable label_eqb : label -> label -> bool.

(** [np.not_equal(a, b)]. *)
Definition not_equal (a b : list label) : option (list bool) :=
  broadcast2 (fun x y => negb (label_eqb x y)) a b.

(** The cell "Find misclassified examples":
<<
      misclass = np.not_equal(ypredict, ytest)
      Xmisclass = Xtest[misclass,:]
      ymisclass = ytest[misclass]
      misclass_indices = [i for i, j in enumerate(misclass) if j == True]
>>
    [ypredict], the output of the library's [predict], is an input. *)
Definition find_misclassified (Xtest : list row) (ytest ypredict : list label)
    : option (list bool * list row * list label * list nat) :=
  misclass <- not_equal ypredict ytest ;;
  Xmisclass <- mask_select Xtest misclass ;;
  ymisclass <- mask_select ytest misclass ;;
  let misclass_indices := indices_where misclass in
  Some (misclass, Xmisclass, ymisclass, misclass_indices).


(** [np.sum(np.not_equal(prediction,ytest))/len(ytest)]; for an empty
    [ytest] numpy prints [nan], where the quotient is 0 here. *)
Definition generalization_error (prediction ytest : list label) : option R :=
  ne <- not_equal prediction ytest ;;
  Some (INR (count_true ne) / INR (length ytest)).

End Labels.

(** [np.split(a, [n])]: the first [n] rows and the rest. *)
Definition np_split {A : Type} (a : list A) (n : nat) : list A * list A :=
  (firstn n a, skipn n a).

(** [sklearn.utils.shuffle(X, y)]: a [ValueError] when the two arrays have
    not the same number of rows; otherwise both are indexed by one random
    permutation [indices] of their row numbers, which is an input here
    (reading a row number that is out of range would raise). *)
Definition shuffle {A B : Type} (indices : list nat) (X : list A) (y : list B)
    : option (list A * list B) :=
  if Nat.eqb (length X) (length y)
  then X0 <- mapM (nth_error X) indices ;;
       y0 <- mapM (nth_error y) indices ;;
       Some (X0, y0)
  else None.

(** [shuffle_and_split(X, y, n)]:
<<
      X0,y0 = shuffle(X,y)
      Xtrain,Xtest = np.split(X0,[n])
      ytrain,ytest = np.split(y0,[n])
      return Xtrain, ytrain, Xtest, ytest
>> *)
Definition shuffle_and_split {A B : Type} (indices : list nat) (X : list A)
    (y : list B) (n : nat) : option (list A * list B * list A * list B) :=
  shuffled <- shuffle indices X y ;;
  let '(X0, y0) := shuffled in
  let '(Xtrain, Xtest) := np_split X0 n in
  let '(ytrain, ytest) := np_split y0 n in
  Some (Xtrain, ytrain, Xtest, ytest).

End Eval.

(** ** Naive Bayes notebook: a change of origin or of units of the features *)

Module Units.

(** Two transformations of the dataset of the classifier cell, used to state
    how its estimates and scores react to the choice of origin and of units;
    they are not functions of the notebook.

    The dataset with every height, weight and foot size measured from
    another origin: [cH], [cW] and [cF] are added to the three feature
    columns, the column of the sex is left as it is. *)
Definition shift_features (cH cW cF : R) (data : list (list R))
    : list (list R) :=
  map (fun row =>
         match row with
         | [s; h; w; f] => [s; h + cH; w + cW; f + cF]
         | _ => row
         end) data.

(** The dataset in other units: the three feature columns are multiplied
    by [aH], [aW] and [aF]. *)
Definition scale_features (aH aW aF : R) (data : list (list R))
    : list (list R) :=
  map (fun row =>
         match row with
         | [s; h; w; f] => [s; aH * h; aW * w; aF * f]
         | _ => row
         end) data.

End Units.

(** * Properties *)

(** ** Facts about the numpy primitives *)

Module NpFacts.
Import Np.

Lemma zip_with_length f a b :
  length a = length b -> length (zip_with f a b) = length a.
Proof.
  revert b; induction a as [|x a IH]; intros [|y b] H; simpl in *;
    try discriminate; auto.
Qed.

Lemma broadcast_same_length f a b :
  length a = length b -> broadcast f a b = Some (zip_with f a b).
Proof.
  intros H; unfold broadcast; rewrite H, Nat.eqb_refl; reflexivity.
Qed.

(** A one-element right operand is stretched over the left one, whatever
    the length of the left operand is. *)
Lemma broadcast_singleton_r f a c :
  broadcast f a [c] = Some (map (fun x => f x c) a).
Proof.
  unfold broadcast; simpl.
  destruct (Nat.eqb (length a) 1) eqn:E; [|reflexivity].
  apply Nat.eqb_eq in E.
  destruct a as [|x [|y a]]; simpl in E; try discriminate; reflexivity.
Qed.

Lemma sum_map_div a c : sum (map (fun x => x / c) a) = sum a / c.
Proof.
  induction a as [|x a IH]; simpl.
  - unfold Rdiv; ring.
  - rewrite IH; unfold Rdiv; ring.
Qed.

Lemma sum_zeros_div (a b : array1) :
  Forall (fun x => x = 0) a -> sum (zip_with Rdiv a b) = 0.
Proof.
  intros H; revert b; induction H as [|x a Hx Ha IH]; intros [|y b]; simpl;
    try reflexivity.
  rewrite IH, Hx; unfold Rdiv; ring.
Qed.

Lemma sum_map_zeros_div (a : array1) c :
  Forall (fun x => x = 0) a -> sum (map (fun x => x / c) a) = 0.
Proof.
  intros H; rewrite sum_map_div.
  assert (sum a = 0) as ->.
  { induction H as [|x a Hx Ha IH]; simpl; [reflexivity|lra]. }
  unfold Rdiv; ring.
Qed.

Lemma broadcast_defined f a b :
  broadcastable (length a) (length b) -> exists r, broadcast f a b = Some r.
Proof.
  intros Hb; unfold broadcast.
  destruct (Nat.eqb_spec (length a) (length b)); [eauto|].
  destruct (Nat.eqb_spec (length b) 1); [eauto|].
  destruct (Nat.eqb_spec (length a) 1); [eauto|].
  unfold broadcastable in Hb; lia.
Qed.

(** Dividing an array of zeros gives an array of sum zero, however numpy
    stretches the operands. *)
Lemma broadcast_div_zeros (a b : array1) :
  Forall (fun x => x = 0) a -> broadcastable (length a) (length b) ->
  exists q, broadcast Rdiv a b = Some q /\ sum q = 0.
Proof.
  intros Hz Hb; unfold broadcast.
  destruct (Nat.eqb_spec (length a) (length b)).
  { eexists; split; [reflexivity|]. apply sum_zeros_div; exact Hz. }
  destruct (Nat.eqb_spec (length b) 1).
  { eexists; split; [reflexivity|]. apply sum_map_zeros_div; exact Hz. }
  destruct (Nat.eqb_spec (length a) 1) as [Ha|Ha].
  { eexists; split; [reflexivity|].
    destruct a as [|x [|x' a]]; simpl in Ha; try discriminate.
    inversion Hz as [|? ? Hx _]; subst; simpl.
    clear. induction b as [|y b IH]; simpl; [reflexivity|].
    rewrite IH. unfold Rdiv; ring. }
  unfold broadcastable in Hb; lia.
Qed.

Lemma mapM_total {A B} (f : A -> option B) (g : A -> B) l :
  (forall a, In a l -> f a = Some (g a)) -> mapM f l = Some (map g l).
Proof.
  induction l as [|a l IH]; intros H; simpl; [reflexivity|].
  rewrite (H a (or_introl eq_refl)); simpl.
  rewrite IH by (intros; apply H; right; assumption).
  reflexivity.
Qed.

Lemma set_nth_length l i v : length (set_nth l i v) = length l.
Proof.
  revert i; induction l as [|x l IH]; intros [|i]; simpl; auto.
Qed.

Lemma nth_error_set_nth_eq l i v :
  (i < length l)%nat -> nth_error (set_nth l i v) i = Some v.
Proof.
  revert i; induction l as [|x l IH]; intros [|i] H; simpl in *;
    try lia; [reflexivity|apply IH; lia].
Qed.

Lemma nth_error_set_nth_neq l i j v :
  i <> j -> nth_error (set_nth l i v) j = nth_error l j.
Proof.
  revert i j; induction l as [|x l IH]; intros [|i] [|j] H; simpl;
    try reflexivity; try congruence.
  apply IH; congruence.
Qed.

Lemma zeros_square n : square_shape n (zeros n n).
Proof.
  split; unfold zeros.
  - apply repeat_length.
  - apply Forall_forall; intros row Hr.
    apply repeat_spec in Hr; subst; apply repeat_length.
Qed.

Lemma set_col_rows_length K i v :
  length (set_col_rows K i v) = length K.
Proof.
  revert v; induction K as [|row K IH]; intros [|x v]; simpl; auto.
Qed.

Lemma set_col_rows_widths n K i v :
  Forall (fun row => length row = n) K ->
  Forall (fun row => length row = n) (set_col_rows K i v).
Proof.
  intros H; revert v; induction H as [|row K Hr HK IH]; intros [|x v];
    simpl; constructor; auto.
  rewrite set_nth_length; assumption.
Qed.

Lemma set_col_rows_entry_col n K i v r :
  Forall (fun row => length row = n) K -> length v = length K ->
  (i < n)%nat -> (r < length K)%nat ->
  entry (set_col_rows K i v) r i = nth_error v r.
Proof.
  intros HK; revert v r; induction HK as [|row K Hr HK IH];
    intros [|x v] [|r] Hv Hi Hlt; simpl in *; try lia; try discriminate.
  - unfold entry; simpl. apply nth_error_set_nth_eq; lia.
  - unfold entry in *; simpl. apply IH; lia.
Qed.

Lemma set_col_rows_entry_other K i v r c :
  i <> c -> entry (set_col_rows K i v) r c = entry K r c.
Proof.
  intros Hic; revert v r; induction K as [|row K IH]; intros [|x v] [|r];
    simpl; try reflexivity.
  - unfold entry; simpl. apply nth_error_set_nth_neq; assumption.
  - unfold entry in *; simpl. apply IH.
Qed.

Lemma set_col_ok n K i v :
  square_shape n K -> length v = n -> (i < n)%nat ->
  set_col K i v = Some (set_col_rows K i v).
Proof.
  intros [HL HW] Hv Hi; unfold set_col.
  rewrite Hv, HL, Nat.eqb_refl; simpl.
  assert (forallb (fun row => Nat.ltb i (length row)) K = true) as ->.
  { apply forallb_forall; intros row Hr.
    rewrite Forall_forall in HW; rewrite (HW row Hr).
    apply Nat.ltb_lt; assumption. }
  reflexivity.
Qed.

Lemma entry_in_range n K r c :
  square_shape n K -> (r < n)%nat -> (c < n)%nat ->
  exists v, entry K r c = Some v.
Proof.
  intros [HL HW] Hr Hc; unfold entry.
  destruct (nth_error K r) as [row|] eqn:E.
  - simpl. rewrite Forall_forall in HW.
    assert (length row = n) by (apply HW; eapply nth_error_In; eassumption).
    destruct (nth_error row c) as [v|] eqn:E'; [eauto|].
    apply nth_error_None in E'; lia.
  - apply nth_error_None in E; lia.
Qed.

Lemma dot_unit_after (y : array1) : forall k i n, (i < k)%nat ->
  dot (map (fun j => if Nat.eqb i j then 1 else 0) (seq k n)) y = 0.
Proof.
  induction y as [|a y IH]; intros k i [|n] Hik; simpl; try reflexivity.
  unfold dot in *; simpl.
  rewrite (IH (S k) i n) by lia.
  destruct (Nat.eqb_spec i k); [lia|ring].
Qed.

(** The dot product with the [i]-th unit vector selects the [i]-th entry. *)
Lemma dot_unit (y : array1) : forall k i, (k <= i)%nat ->
  dot (map (fun j => if Nat.eqb i j then 1 else 0) (seq k (length y))) y
  = nth (i - k) y 0.
Proof.
  induction y as [|a y IH]; intros k i Hik; simpl.
  - destruct (i - k)%nat; reflexivity.
  - unfold dot in *; simpl.
    destruct (Nat.eqb_spec i k) as [->|Hne].
    + rewrite Nat.sub_diag.
      pose proof (dot_unit_after y (S k) k (length y)) as H0.
      unfold dot in H0; rewrite H0 by lia. ring.
    + rewrite (IH (S k) i) by lia.
      replace (i - k)%nat with (S (i - S k)) by lia. simpl; ring.
Qed.

Lemma nth_error_seq0 n i : (i < n)%nat -> nth_error (seq 0 n) i = Some i.
Proof.
  intros H.
  rewrite (nth_error_nth' (seq 0 n) O) by (rewrite length_seq; exact H).
  rewrite seq_nth by exact H. reflexivity.
Qed.

Lemma nth_error_eye n i : (i < n)%nat ->
  nth_error (eye n) i
  = Some (map (fun j => if Nat.eqb i j then 1 else 0) (seq 0 n)).
Proof.
  intros H; unfold eye.
  rewrite nth_error_map, nth_error_seq0 by exact H. reflexivity.
Qed.

Lemma nth_error_mat_mul A B i row :
  nth_error A i = Some row ->
  nth_error (mat_mul A B) i = Some (vec_mat row B).
Proof.
  intros H; unfold mat_mul. rewrite nth_error_map, H. reflexivity.
Qed.

End NpFacts.

(** ** The squared-exponential kernel and the covariance matrix *)

Module GPFacts.
Import Np NpFacts GP.

Lemma sum_square_diff x x' :
  sum (square (zip_with Rminus x x')) = sqdist x x'.
Proof.
  revert x'; induction x as [|a x IH]; intros [|b x']; simpl;
    try reflexivity.
  rewrite <- IH; reflexivity.
Qed.

Lemma sqdist_sym x x' : sqdist x x' = sqdist x' x.
Proof.
  revert x'; induction x as [|a x IH]; intros [|b x']; simpl;
    try reflexivity.
  rewrite IH; ring.
Qed.


Lemma square_diff_zero x :
  Forall (fun v => v = 0) (square (zip_with Rminus x x)).
Proof.
  induction x as [|a x IH]; simpl; constructor; [ring|exact IH].
Qed.

(** With a scalar length-scale the code computes the kernel of the text. *)
Lemma cov_function_scalar (x x' : Point) (l sig : R) :
  length x = length x' ->
  cov_function x x' [l] sig = Some (se_kernel l sig x x').
Proof.
  intros H; unfold cov_function, se_kernel.
  rewrite (broadcast_same_length _ _ _ H); simpl.
  rewrite broadcast_singleton_r; simpl.
  rewrite sum_map_div, sum_square_diff.
  do 3 f_equal. unfold Rdiv; ring.
Qed.

(** The squares of the differences do not depend on the order of the two
    points, also where numpy stretches one of them. *)
Lemma square_diff_sym (a b : Point) :
  option_map square (broadcast Rminus a b)
  = option_map square (broadcast Rminus b a).
Proof.
  assert (Hz : forall u v : Point,
             square (zip_with Rminus u v) = square (zip_with Rminus v u)).
  { induction u as [|x u IH]; intros [|y v]; simpl; try reflexivity.
    rewrite IH; f_equal; ring. }
  assert (Hm : forall (u : Point) c,
             square (map (fun x => x - c) u) = square (map (fun y => c - y) u)).
  { induction u as [|x u IH]; intros c; simpl; [reflexivity|].
    rewrite IH; f_equal; ring. }
  unfold broadcast.
  rewrite (Nat.eqb_sym (length b) (length a)).
  destruct (Nat.eqb (length a) (length b)) eqn:E; simpl.
  - f_equal; apply Hz.
  - destruct (Nat.eqb (length b) 1) eqn:Eb;
      destruct (Nat.eqb (length a) 1) eqn:Ea; simpl; try reflexivity.
    + apply Nat.eqb_eq in Ea, Eb. apply Nat.eqb_neq in E. congruence.
    + f_equal; apply Hm.
    + f_equal; symmetry; apply Hm.
Qed.

Lemma cov_function_sym (p q : Point) theta sig :
  cov_function p q theta sig = cov_function q p theta sig.
Proof.
  unfold cov_function.
  pose proof (square_diff_sym p q) as H.
  destruct (broadcast Rminus p q) as [u|], (broadcast Rminus q p) as [v|];
    simpl in *; try discriminate; [|reflexivity].
  injection H as H; rewrite H; reflexivity.
Qed.

(** The kernel is defined on points of one dimension [d] as soon as numpy
    can broadcast [theta] against them. *)
Lemma cov_function_defined d (p q : Point) theta sig :
  length p = d -> length q = d ->
  broadcastable d (length theta) ->
  exists v, cov_function p q theta sig = Some v.
Proof.
  intros Hp Hq Ht; unfold cov_function.
  rewrite broadcast_same_length by congruence; simpl.
  destruct (broadcast_defined Rdiv (square (zip_with Rminus p q))
              (square theta)) as [r ->]; [|simpl; eauto].
  unfold square; rewrite !length_map, zip_with_length; congruence.
Qed.

Lemma cov_function_diag d (p : Point) theta sig :
  length p = d -> broadcastable d (length theta) ->
  cov_function p p theta sig = Some (sig ^ 2).
Proof.
  intros Hp Ht; unfold cov_function.
  rewrite broadcast_same_length by reflexivity; simpl.
  destruct (broadcast_div_zeros (square (zip_with Rminus p p))
              (square theta)) as (q & -> & Hq).
  - apply square_diff_zero.
  - unfold square; rewrite !length_map, zip_with_length; congruence.
  - simpl. rewrite Hq, Ropp_0, exp_0. f_equal; ring.
Qed.

Section CovMatrixLoop.

Variables (points : list Point) (theta : array1) (sig : R).
Variable kf : Point -> Point -> R.
Hypothesis kf_ok : forall p q, In p points -> In q points ->
  cov_function p q theta sig = Some (kf p q).

(** Invariant of the loop of [cov_matrix]: the columns already visited hold
    the kernel values, the matrix keeps its shape, and the loop does not
    raise. *)
Lemma cov_matrix_loop_spec : forall rest done K,
  points = done ++ rest ->
  square_shape (length points) K ->
  exists K',
    cov_matrix_loop (enumerate_from (length done) rest) points theta sig K
      = Some K'
    /\ square_shape (length points) K'
    /\ (forall r c, (c < length done)%nat -> entry K' r c = entry K r c)
    /\ (forall r c pr pc, (length done <= c)%nat ->
          nth_error points r = Some pr -> nth_error points c = Some pc ->
          entry K' r c = Some (kf pc pr)).
Proof.
  induction rest as [|p rest IH]; intros done K Hsplit HK.
  - exists K; simpl; repeat split; try apply HK.
    intros r c pr pc Hc _ Hpc.
    assert (c < length points)%nat
      by (apply nth_error_Some; congruence).
    rewrite Hsplit, app_nil_r in H; lia.
  - simpl.
    assert (Hp : In p points) by (rewrite Hsplit; apply in_elt).
    assert (Hk : (length done < length points)%nat).
    { rewrite Hsplit, length_app; simpl; lia. }
    rewrite (mapM_total _ (kf p)) by (intros; apply kf_ok; assumption).
    simpl.
    assert (Hcol : length (map (kf p) points) = length points)
      by apply length_map.
    rewrite (set_col_ok _ _ _ _ HK Hcol Hk); simpl.
    set (K1 := set_col_rows K (length done) (map (kf p) points)).
    assert (HK1 : square_shape (length points) K1).
    { destruct HK as [HL HW]; split.
      - unfold K1; rewrite set_col_rows_length; exact HL.
      - apply set_col_rows_widths; exact HW. }
    destruct (IH (done ++ [p]) K1) as (K' & Hrun & HK' & Hold & Hnew).
    { rewrite <- app_assoc; exact Hsplit. }
    { exact HK1. }
    rewrite length_app in Hrun, Hold, Hnew; simpl in Hrun, Hold, Hnew.
    rewrite Nat.add_1_r in Hrun, Hold, Hnew.
    exists K'; repeat split; try apply HK'; try exact Hrun.
    + intros r c Hc. rewrite Hold by lia.
      apply set_col_rows_entry_other; lia.
    + intros r c pr pc Hc Hr Hpc.
      destruct (Nat.eq_dec c (length done)) as [->|Hne].
      * rewrite Hold by lia. unfold K1.
        destruct HK as [HL HW].
        rewrite (set_col_rows_entry_col (length points)); try lia;
          try assumption.
        -- rewrite nth_error_map, Hr; simpl.
           rewrite Hsplit, nth_error_app2, Nat.sub_diag in Hpc by lia.
           simpl in Hpc; congruence.
        -- rewrite HL. apply nth_error_Some; congruence.
      * apply (Hnew r c pr pc); try assumption; lia.
Qed.

Lemma cov_matrix_spec :
  exists K,
    cov_matrix points theta sig = Some K
    /\ square_shape (length points) K
    /\ (forall r c pr pc,
          nth_error points r = Some pr -> nth_error points c = Some pc ->
          entry K r c = Some (kf pc pr)).
Proof.
  destruct (cov_matrix_loop_spec points [] (zeros (length points) (length points)))
    as (K & Hrun & HK & _ & Hnew).
  - reflexivity.
  - apply zeros_square.
  - exists K; repeat split; try apply HK; try exact Hrun.
    intros r c pr pc Hr Hc. apply (Hnew r c pr pc); simpl; try assumption; lia.
Qed.

End CovMatrixLoop.

(** C7: with a scalar length-scale [l] and amplitude [sigma_f] the covariance
    function evaluates to [sigma_f^2 * exp(-||x - x'||^2 / l^2)] on any two
    points of one dimension, and [cov_matrix] returns a matrix whose entry
    [(i, j)] is exactly this kernel value of the stored points [x_i], [x_j]. *)
Theorem cov_matrix_holds_kernel (d : nat) (points : list Point)
    (l sigma_f : R) :
  0 < l -> 0 < sigma_f ->
  Forall (fun p => length p = d) points ->
  (forall x x', length x = d -> length x' = d ->
     cov_function x x' [l] sigma_f
       = Some (sigma_f ^ 2 * exp (- sqdist x x' / l ^ 2)))
  /\ exists K,
       cov_matrix points [l] sigma_f = Some K
       /\ forall i j xi xj,
            nth_error points i = Some xi -> nth_error points j = Some xj ->
            entry K i j = Some (sigma_f ^ 2 * exp (- sqdist xi xj / l ^ 2)).
Proof.
  intros _ _ Hdim; split.
  - intros x x' Hx Hx'. apply cov_function_scalar; congruence.
  - rewrite Forall_forall in Hdim.
    destruct (cov_matrix_spec points [l] sigma_f (se_kernel l sigma_f))
      as (K & Hrun & _ & Hentry).
    + intros p q Hp Hq. apply cov_function_scalar.
      rewrite (Hdim p Hp), (Hdim q Hq); reflexivity.
    + exists K; split; [exact Hrun|].
      intros i j xi xj Hi Hj.
      rewrite (Hentry i j xi xj Hi Hj).
      unfold se_kernel; rewrite (sqdist_sym xj xi); reflexivity.
Qed.

(** C10: for a non-empty array of points of one dimension and positive
    [theta] and [sig], [cov_matrix] returns a square matrix that is symmetric
    and whose diagonal entries all equal [sig^2]. *)
Theorem cov_matrix_symmetric_diag (d : nat) (points : list Point)
    (theta : array1) (sig : R) :
  points <> [] ->
  Forall (fun t => 0 < t) theta -> 0 < sig ->
  Forall (fun p => length p = d) points ->
  broadcastable d (length theta) ->
  exists K,
    cov_matrix points theta sig = Some K
    /\ square_shape (length points) K
    /\ (forall i j, (i < length points)%nat -> (j < length points)%nat ->
          entry K i j = entry K j i)
    /\ (forall i, (i < length points)%nat -> entry K i i = Some (sig ^ 2)).
Proof.
  intros _ _ _ Hdim Htheta.
  rewrite Forall_forall in Hdim.
  pose (kf := kernel_of theta sig).
  destruct (cov_matrix_spec points theta sig kf) as (K & Hrun & HK & Hentry).
  { intros p q Hp Hq; unfold kf, kernel_of.
    destruct (cov_function_defined d p q theta sig) as [v ->]; auto. }
  assert (Hnth : forall i, (i < length points)%nat ->
                   exists p, nth_error points i = Some p /\ length p = d).
  { intros i Hi. destruct (nth_error points i) as [p|] eqn:E.
    - exists p; split; [reflexivity|]. apply Hdim.
      eapply nth_error_In; eassumption.
    - apply nth_error_None in E; lia. }
  exists K; repeat split; try apply HK; try exact Hrun.
  - intros i j Hi Hj.
    destruct (Hnth i Hi) as (pi & Ei & _), (Hnth j Hj) as (pj & Ej & _).
    rewrite (Hentry i j pi pj Ei Ej), (Hentry j i pj pi Ej Ei).
    unfold kf, kernel_of; rewrite (cov_function_sym pj pi); reflexivity.
  - intros i Hi.
    destruct (Hnth i Hi) as (pi & Ei & Hlen).
    rewrite (Hentry i i pi pi Ei Ei).
    unfold kf, kernel_of; rewrite (cov_function_diag d); auto.
Qed.

Lemma cov_matrix_holds_kernel_witness :
  exists K,
    cov_matrix [[0]; [7]; [25]] [3] 1 = Some K
    /\ entry K 0 1 = Some (1 ^ 2 * exp (- sqdist [0] [7] / 3 ^ 2)).
Proof.
  destruct (cov_matrix_holds_kernel 1 [[0]; [7]; [25]] 3 1) as [_ (K & HK & HE)].
  - lra.
  - lra.
  - repeat constructor.
  - exists K; split; [exact HK|].
    apply (HE 0%nat 1%nat [0] [7]); reflexivity.
Defined.

Lemma cov_matrix_symmetric_diag_witness :
  exists K,
    cov_matrix [[0]; [7]; [25]] [3] 1 = Some K
    /\ entry K 0 2 = entry K 2 0
    /\ entry K 1 1 = Some (1 ^ 2).
Proof.
  destruct (cov_matrix_symmetric_diag 1 [[0]; [7]; [25]] [3] 1)
    as (K & HK & _ & Hsym & Hdiag).
  - discriminate.
  - repeat constructor; lra.
  - lra.
  - repeat constructor.
  - right; left; reflexivity.
  - exists K; split; [exact HK|]; split.
    + apply Hsym; simpl; lia.
    + apply Hdiag; simpl; lia.
Defined.

Section Interpolation.

Variables (d : nat) (points : list Point) (theta : array1) (sig : R).
Variables (K : array2).
Hypothesis dim_ok : Forall (fun p => length p = d) points.
Hypothesis theta_ok : broadcastable d (length theta).
Hypothesis K_ok : cov_matrix points theta sig = Some K.

Local Abbreviation kernel_of := (GP.kernel_of theta sig).

Lemma kernel_of_ok p q : In p points -> In q points ->
  cov_function p q theta sig = Some (kernel_of p q).
Proof.
  intros Hp Hq; unfold GP.kernel_of.
  rewrite Forall_forall in dim_ok.
  destruct (cov_function_defined d p q theta sig) as [v ->]; auto.
Qed.

Lemma kernel_of_sym p q : kernel_of p q = kernel_of q p.
Proof. unfold GP.kernel_of; rewrite cov_function_sym; reflexivity. Qed.

(** At a stored point the vector [k_star] is the matching row of [K]. *)
Lemma cov_vect_is_row i xi :
  nth_error points i = Some xi ->
  cov_vect xi points theta sig = Some (map (kernel_of xi) points)
  /\ nth_error K i = Some (map (kernel_of xi) points).
Proof.
  intros Hi.
  assert (Hin : In xi points) by (eapply nth_error_In; eassumption).
  split.
  - unfold cov_vect. apply mapM_total.
    intros q Hq; apply kernel_of_ok; assumption.
  - destruct (cov_matrix_spec points theta sig kernel_of kernel_of_ok)
      as (K0 & Hrun & [HL HW] & Hentry).
    rewrite K_ok in Hrun; injection Hrun as <-.
    assert (Hlt : (i < length points)%nat)
      by (apply nth_error_Some; congruence).
    destruct (nth_error K i) as [row|] eqn:Erow;
      [|apply nth_error_None in Erow; lia].
    f_equal. apply nth_error_ext; intros c.
    rewrite nth_error_map.
    destruct (nth_error points c) as [pc|] eqn:Ec; simpl.
    + specialize (Hentry i c xi pc Hi Ec).
      unfold entry in Hentry; rewrite Erow in Hentry; simpl in Hentry.
      rewrite Hentry, kernel_of_sym; reflexivity.
    + apply nth_error_None. apply nth_error_None in Ec.
      rewrite Forall_forall in HW.
      rewrite (HW row) by (eapply nth_error_In; eassumption). exact Ec.
Qed.

Variables (K_inv : array2) (y : array1).
Hypothesis K_inv_ok : is_inverse (length points) K K_inv.
Hypothesis y_ok : length y = length points.

(** [k_star(x_i) . K^{-1}] is the [i]-th unit vector. *)
Lemma k_star_K_inv_unit i xi :
  nth_error points i = Some xi ->
  vec_mat (map (kernel_of xi) points) K_inv
  = map (fun j => if Nat.eqb i j then 1 else 0) (seq 0 (length points)).
Proof.
  intros Hi.
  destruct (cov_vect_is_row i xi Hi) as [_ Hrow].
  pose proof (nth_error_mat_mul K K_inv i _ Hrow) as Hm.
  destruct K_inv_ok as [HI _]. rewrite HI in Hm.
  rewrite nth_error_eye in Hm by (apply nth_error_Some; congruence).
  congruence.
Qed.

Lemma predict_at_stored_point i xi :
  nth_error points i = Some xi ->
  myGPpredict xi points y K_inv theta sig = Some (nth i y 0, 0).
Proof.
  intros Hi.
  assert (Hin : In xi points) by (eapply nth_error_In; eassumption).
  assert (Hlt : (i < length points)%nat)
    by (apply nth_error_Some; congruence).
  unfold myGPpredict.
  destruct (cov_vect_is_row i xi Hi) as [-> _]; simpl.
  rewrite (kernel_of_ok xi xi Hin Hin); simpl.
  rewrite (k_star_K_inv_unit i xi Hi).
  rewrite <- y_ok at 1. rewrite dot_unit by lia.
  replace (length points) with (length (map (kernel_of xi) points))
    by apply length_map.
  rewrite dot_unit by lia.
  rewrite Nat.sub_0_r.
  rewrite (nth_error_nth (map (kernel_of xi) points) i 0
             (x := kernel_of xi xi))
    by (rewrite nth_error_map, Hi; reflexivity).
  do 2 f_equal. ring.
Qed.

End Interpolation.

(** C2: for pairwise-distinct stored points, positive length-scale and
    amplitude and an invertible covariance matrix [K] with inverse [K_inv],
    the prediction at a stored point [x_i] has mean [y_i] and variance [0]. *)
Theorem gp_interpolates (d : nat) (points : list Point) (theta : array1)
    (sig : R) (K K_inv : array2) (y : array1) (i : nat) (xi : Point) :
  NoDup points ->
  Forall (fun t => 0 < t) theta -> 0 < sig ->
  Forall (fun p => length p = d) points ->
  broadcastable d (length theta) ->
  length y = length points ->
  cov_matrix points theta sig = Some K ->
  is_inverse (length points) K K_inv ->
  nth_error points i = Some xi ->
  myGPpredict xi points y K_inv theta sig = Some (nth i y 0, 0).
Proof.
  intros _ _ _ Hdim Htheta Hy HK Hinv Hi.
  apply (predict_at_stored_point d points theta sig K Hdim Htheta HK
           K_inv y Hinv Hy i xi Hi).
Qed.

(** Two stored points [0] and [1] with [theta = 1], [sig = 1]: the
    covariance matrix is [[1, e], [e, 1]] with [e = exp(-1)]. *)
Lemma gp_interpolates_witness :
  let e := exp (-1) in
  let K_inv := [[1 / (1 - e * e); - e / (1 - e * e)];
                [- e / (1 - e * e); 1 / (1 - e * e)]] in
  myGPpredict [1] [[0]; [1]] [5; 8] K_inv [1] 1 = Some (8, 0).
Proof.
  intros e K_inv.
  assert (He : e < 1).
  { unfold e. rewrite <- exp_0. apply exp_increasing. lra. }
  assert (He0 : 0 < e) by apply exp_pos.
  assert (Hden : 1 - e * e <> 0) by nra.
  apply (gp_interpolates 1 [[0]; [1]] [1] 1 [[1; e]; [e; 1]] K_inv [5; 8]
           1%nat [1]).
  - constructor; [simpl; intros [H|[]]; injection H; lra|].
    constructor; [simpl; tauto|constructor].
  - repeat constructor; lra.
  - lra.
  - repeat constructor.
  - right; left; reflexivity.
  - reflexivity.
  - unfold cov_matrix, cov_function; simpl.
    repeat f_equal;
      match goal with
      | |- _ * exp ?a = 1 =>
          replace a with 0 by field; rewrite exp_0; ring
      | |- _ * exp ?a = e =>
          replace a with (-1) by field; unfold e; ring
      end.
  - unfold is_inverse, mat_mul, vec_mat, eye, dot, K_inv; simpl.
    split; repeat f_equal; field; exact Hden.
  - reflexivity.
Defined.

End GPFacts.

(** ** Choice among the multi-start optimisations *)

Module HyperOptFacts.
Import HyperOpt.

(** Invariant of the scan of [np.argmin]: [pre] is the part already seen,
    [best] its first smallest value and [best_i] its index. *)
Lemma argmin_from_spec : forall l pre best_i best,
  nth_error pre best_i = Some best ->
  (forall v, In v pre -> best <= v) ->
  exists m,
    nth_error (pre ++ l) (argmin_from best_i best (length pre) l) = Some m
    /\ forall v, In v (pre ++ l) -> m <= v.
Proof.
  induction l as [|v t IH]; intros pre best_i best Hbest Hmin; simpl.
  - exists best; rewrite app_nil_r; auto.
  - destruct (Rlt_dec v best) as [Hlt|Hge].
    + destruct (IH (pre ++ [v]) (length pre) v) as (m & Hm & Hall).
      * rewrite nth_error_app2, Nat.sub_diag by lia; reflexivity.
      * intros w Hw; apply in_app_or in Hw; destruct Hw as [Hw|[<-|[]]].
        -- apply Hmin in Hw; lra.
        -- lra.
      * rewrite length_app, Nat.add_1_r in Hm; simpl in Hm.
        rewrite <- app_assoc in Hm, Hall; simpl in Hm, Hall.
        exists m; auto.
    + destruct (IH (pre ++ [v]) best_i best) as (m & Hm & Hall).
      * rewrite nth_error_app1; [exact Hbest|].
        apply nth_error_Some; congruence.
      * intros w Hw; apply in_app_or in Hw; destruct Hw as [Hw|[<-|[]]].
        -- apply Hmin; exact Hw.
        -- lra.
      * rewrite length_app, Nat.add_1_r in Hm; simpl in Hm.
        rewrite <- app_assoc in Hm, Hall; simpl in Hm, Hall.
        exists m; auto.
Qed.

Lemma argmin_spec l :
  match argmin l with
  | None => l = []
  | Some r => exists m, nth_error l r = Some m /\ forall v, In v l -> m <= v
  end.
Proof.
  destruct l as [|v t]; simpl; [reflexivity|].
  apply (argmin_from_spec t [v] 0%nat v); [reflexivity|].
  intros w [<-|[]]; lra.
Qed.

(** C5: the result kept comes from a run reported as successful and its
    objective value is the minimum over all successful runs; there is a
    result as soon as one run is successful; when no run is successful the
    selection raises and no hyperparameter is returned. *)
Theorem select_opt_best (opt_all : list OptimizeResult) :
  (forall opt, select_opt opt_all = Some opt ->
     In opt opt_all /\ success opt = true
     /\ theta_et opt_all = Some (x opt)
     /\ forall o, In o opt_all -> success o = true -> fun_ opt <= fun_ o)
  /\ ((exists o, In o opt_all /\ success o = true) ->
      exists opt, select_opt opt_all = Some opt)
  /\ ((forall o, In o opt_all -> success o = false) ->
      select_opt opt_all = None /\ theta_et opt_all = None).
Proof.
  unfold theta_et, select_opt.
  pose proof (argmin_spec (map fun_ (filter success opt_all))) as Hspec.
  destruct (argmin (map fun_ (filter success opt_all))) as [r|]; simpl.
  - destruct Hspec as (m & Hm & Hall).
    rewrite nth_error_map in Hm.
    destruct (nth_error (filter success opt_all) r) as [opt|] eqn:E;
      simpl in Hm; [|discriminate].
    injection Hm as <-.
    assert (Hin : In opt (filter success opt_all))
      by (eapply nth_error_In; eassumption).
    apply filter_In in Hin. destruct Hin as [Hin Hs].
    split; [|split].
    + intros opt' [= <-].
      split; [exact Hin|]. split; [exact Hs|]. split; [reflexivity|].
      intros o Ho Hso. apply Hall. apply in_map.
      apply filter_In; auto.
    + intros _; eauto.
    + intros Hnone. rewrite (Hnone opt Hin) in Hs; discriminate.
  - split; [|split].
    + discriminate.
    + intros (o & Ho & Hs).
      assert (Hin : In (fun_ o) (map fun_ (filter success opt_all)))
        by (apply in_map; apply filter_In; auto).
      rewrite Hspec in Hin; destruct Hin.
    + intros _; split; reflexivity.
Qed.

(** Runs started from the five guesses of [theta_start], two of which
    failed: the successful run of lowest objective is kept. *)
Lemma select_opt_best_witness :
  let opt_all := [mkOpt false (-9) [0.1]; mkOpt true 4 [6]; mkOpt true 2 [12];
                  mkOpt false 1 [18]; mkOpt true 3 [25]] in
  exists opt, select_opt opt_all = Some opt /\ success opt = true
              /\ fun_ opt <= 2.
Proof.
  intros opt_all.
  destruct (select_opt_best opt_all) as (Hsel & Hex & _).
  destruct Hex as [opt Hopt].
  - exists (mkOpt true 2 [12]); simpl; auto.
  - exists opt; split; [exact Hopt|].
    destruct (Hsel opt Hopt) as (_ & Hs & _ & Hmin).
    split; [exact Hs|].
    apply (Hmin (mkOpt true 2 [12])); simpl; auto.
Defined.

End HyperOptFacts.

(** ** Expected Improvement and the EGO loop *)

Module EGOFacts.
Import Scipy EGO.

(** C6: Expected Improvement equals
    [(f_min - mu) * Phi(z) + sigma * phi(z)] with [z = (f_min - mu) / sigma]
    when [sigma > 0], equals 0 when [sigma = 0], and never divides by
    zero. *)
Theorem EI_point_spec (norm_cdf : R -> R) (GP : Surrogate) (f_min : R)
    (point : Point) :
  (0 < sigma GP point ->
     EI_point norm_cdf GP f_min point
     = Some ((f_min - mu GP point)
               * norm_cdf ((f_min - mu GP point) / sigma GP point)
             + sigma GP point
               * norm_pdf_std ((f_min - mu GP point) / sigma GP point)))
  /\ (sigma GP point = 0 -> EI_point norm_cdf GP f_min point = Some 0)
  /\ EI_point norm_cdf GP f_min point <> None.
Proof.
  unfold EI_point, checked_div.
  destruct (Req_dec_T (sigma GP point) 0) as [Hz|Hnz]; simpl.
  - split; [intros; lra|]. split; [reflexivity|discriminate].
  - split; [reflexivity|]. split; [intros; contradiction|discriminate].
Qed.

(** A surrogate that knows the stored point [7] exactly and is uncertain at
    [10]. *)
Lemma EI_point_spec_witness :
  let GP := mkSurrogate (fun p => nth 0 p 0)
                        (fun p => if Req_dec_T (nth 0 p 0) 7 then 0 else 2) in
  let Phi := fun z : R => 1 / 2 in
  EI_point Phi GP 3 [7] = Some 0
  /\ EI_point Phi GP 3 [10]
     = Some ((3 - 10) * Phi ((3 - 10) / 2) + 2 * norm_pdf_std ((3 - 10) / 2)).
Proof.
  intros GP Phi.
  assert (H7 : sigma GP [7] = 0).
  { simpl. destruct (Req_dec_T 7 7); [reflexivity|lra]. }
  assert (H10 : sigma GP [10] = 2).
  { simpl. destruct (Req_dec_T 10 7); [lra|reflexivity]. }
  split.
  - apply (EI_point_spec Phi GP 3 [7]). exact H7.
  - destruct (EI_point_spec Phi GP 3 [10]) as (Hpos & _).
    rewrite H10 in Hpos. apply Hpos. lra.
Defined.

(** At a point already sampled the GP surrogate has no variance left, so
    Expected Improvement is 0 there. *)
Lemma EI_zero_at_stored_point (norm_cdf : R -> R) (d : nat)
    (points : list Point) (theta : list R) (sig : R) (K K_inv : list (list R))
    (y : list R) (f_min : R) (k : nat) (xk : Point) :
  Forall (fun p => length p = d) points ->
  Np.broadcastable d (length theta) ->
  length y = length points ->
  GP.cov_matrix points theta sig = Some K ->
  GP.is_inverse (length points) K K_inv ->
  nth_error points k = Some xk ->
  EI_point norm_cdf (gp_surrogate points y K_inv theta sig) f_min xk = Some 0.
Proof.
  intros Hdim Htheta Hy HK Hinv Hk.
  pose proof (GPFacts.predict_at_stored_point d points theta sig K Hdim
                Htheta HK K_inv y Hinv Hy k xk Hk) as Hpred.
  unfold EI_point, gp_surrogate; simpl. rewrite Hpred, sqrt_0.
  destruct (Req_dec_T 0 0) as [_|Hne]; [reflexivity|contradiction].
Qed.

Section LoopFacts.

Variable model : list Point -> list R -> Surrogate.
Variable argmax_acquisition : Surrogate -> R -> Point.
Variable F : Point -> R.

Local Abbreviation ego_pass := (EGO.ego_pass model argmax_acquisition F).
Local Abbreviation ego_loop := (EGO.ego_loop model argmax_acquisition F).
Local Abbreviation after_passes :=
  (EGO.after_passes model argmax_acquisition F).

Lemma np_min_defined (a : list R) : a <> [] -> exists m, np_min a = Some m.
Proof. destruct a; [congruence|simpl; eauto]. Qed.

(** Appending an observation can only lower the minimum. *)
Lemma np_min_snoc (a : list R) (m v : R) :
  np_min a = Some m -> np_min (a ++ [v]) = Some (Rmin m v).
Proof.
  destruct a as [|u t]; simpl; [discriminate|].
  intros [= <-]. rewrite fold_left_app; reflexivity.
Qed.

(** A pass on a non-empty design does not raise, appends one pair and
    counts one. *)
Lemma ego_pass_ok (D : DoE) :
  Y D <> [] ->
  exists x_next y_next m,
    np_min (Y D) = Some m
    /\ ego_pass D
       = Some {| X := X D ++ [x_next]; Y := Y D ++ [y_next]; i := S (i D) |}.
Proof.
  intros HY. destruct (np_min_defined _ HY) as [m Hm].
  unfold EGO.ego_pass; rewrite Hm; simpl; eauto.
Qed.

Lemma after_passes_S_first k : forall D,
  after_passes (S k) D = D' <- ego_pass D ;; after_passes k D'.
Proof.
  induction k as [|k IH]; intros D.
  - simpl. destruct (ego_pass D); reflexivity.
  - change (after_passes (S (S k)) D)
      with (D' <- after_passes (S k) D ;; ego_pass D').
    rewrite IH. destruct (ego_pass D) as [D1|]; reflexivity.
Qed.

Lemma after_passes_ok k : forall D,
  Y D <> [] ->
  exists Dk xs ys,
    after_passes k D = Some Dk
    /\ X Dk = X D ++ xs /\ Y Dk = Y D ++ ys
    /\ length xs = k /\ length ys = k
    /\ i Dk = (i D + k)%nat.
Proof.
  induction k as [|k IH]; intros D HY.
  - exists D, [], []; simpl; rewrite !app_nil_r, Nat.add_0_r.
    repeat split; reflexivity.
  - destruct (IH D HY) as (Dk & xs & ys & Hk & HX & HYk & Lx & Ly & Hi).
    assert (HYne : Y Dk <> []).
    { rewrite HYk. destruct (Y D); [congruence|discriminate]. }
    destruct (ego_pass_ok Dk HYne) as (xn & yn & m & _ & Hpass).
    exists {| X := X Dk ++ [xn]; Y := Y Dk ++ [yn]; i := S (i Dk) |},
           (xs ++ [xn]), (ys ++ [yn]).
    simpl. rewrite Hk; simpl. rewrite Hpass, HX, HYk, Hi.
    rewrite !app_assoc, !length_app; simpl.
    repeat split; try lia.
Qed.

(** The loop stops by itself: as soon as the fuel covers the passes still
    due, it returns the design reached after exactly these passes. *)
Lemma ego_loop_runs n_iter : forall fuel D,
  Y D <> [] -> (i D <= n_iter)%nat -> (n_iter - i D <= fuel)%nat ->
  exists D', after_passes (n_iter - i D) D = Some D'
             /\ ego_loop fuel n_iter D = Done D'.
Proof.
  induction fuel as [|fuel IH]; intros D HY Hle Hfuel.
  - replace (n_iter - i D)%nat with O by lia. exists D; simpl.
    destruct (Nat.leb_spec n_iter (i D)); [auto|lia].
  - simpl. destruct (Nat.leb_spec n_iter (i D)) as [Hge|Hlt].
    + replace (n_iter - i D)%nat with O by lia. exists D; auto.
    + destruct (ego_pass_ok D HY) as (xn & yn & m & _ & Hpass).
      rewrite Hpass.
      set (D1 := {| X := X D ++ [xn]; Y := Y D ++ [yn]; i := S (i D) |}).
      destruct (IH D1) as (D' & Hafter & Hrun).
      * simpl. destruct (Y D); discriminate.
      * simpl; lia.
      * simpl; lia.
      * exists D'; split; [|exact Hrun].
        replace (n_iter - i D)%nat with (S (n_iter - i D1)) by (simpl; lia).
        rewrite after_passes_S_first, Hpass; simpl. exact Hafter.
Qed.

End LoopFacts.

(** C3: from a non-empty initial design the EGO loop stops after exactly
    [n_iter] passes, has then appended exactly [n_iter] points and
    [n_iter] values to the seed, and the minimum of the observed values
    never increases from one pass to the next. *)
Theorem ego_loop_budget (model : list Point -> list R -> Surrogate)
    (argmax_acquisition : Surrogate -> R -> Point) (F : Point -> R)
    (n_iter : nat) (x_data : list Point) (y_data : list R) :
  x_data <> [] -> length x_data = length y_data ->
  let D0 := {| X := x_data; Y := y_data; i := 0 |} in
  exists D xs ys,
    (forall fuel, (n_iter <= fuel)%nat ->
       ego_loop model argmax_acquisition F fuel n_iter D0 = Done D)
    /\ after_passes model argmax_acquisition F n_iter D0 = Some D
    /\ i D = n_iter
    /\ X D = x_data ++ xs /\ Y D = y_data ++ ys
    /\ length xs = n_iter /\ length ys = n_iter
    /\ forall k, (k < n_iter)%nat ->
         exists Dk Dk1 m m1,
           after_passes model argmax_acquisition F k D0 = Some Dk
           /\ after_passes model argmax_acquisition F (S k) D0 = Some Dk1
           /\ np_min (Y Dk) = Some m /\ np_min (Y Dk1) = Some m1
           /\ m1 <= m.
Proof.
  intros Hne Hlen D0.
  assert (HY : Y D0 <> []).
  { simpl. destruct x_data, y_data; simpl in *; congruence. }
  destruct (after_passes_ok model argmax_acquisition F n_iter D0 HY)
    as (D & xs & ys & Hafter & HX & HYs & Lx & Ly & Hi).
  exists D, xs, ys.
  split; [|repeat (split; [assumption|])].
  - intros fuel Hfuel.
    destruct (ego_loop_runs model argmax_acquisition F n_iter fuel D0)
      as (D' & Hafter' & Hrun); simpl; try lia; try assumption.
    simpl in Hafter'. rewrite Nat.sub_0_r in Hafter'.
    rewrite Hafter in Hafter'. injection Hafter' as <-. exact Hrun.
  - intros k Hk.
    destruct (after_passes_ok model argmax_acquisition F k D0 HY)
      as (Dk & xs' & ys' & Hafterk & _ & HYk & _ & _ & _).
    assert (HYne : Y Dk <> []).
    { rewrite HYk. destruct (Y D0); [congruence|discriminate]. }
    destruct (ego_pass_ok model argmax_acquisition F Dk HYne)
      as (xn & yn & m & Hm & Hpass).
    eexists Dk, _, m, (Rmin m yn).
    split; [exact Hafterk|]. simpl. rewrite Hafterk; simpl.
    split; [exact Hpass|]. split; [exact Hm|]. simpl.
    split; [apply np_min_snoc; exact Hm|apply Rmin_l].
Qed.

(** The seed [{0, 7, 25}] of the notebook with a budget of two passes. *)
Lemma ego_loop_budget_witness :
  let model := fun (_ : list Point) (_ : list R) =>
                 mkSurrogate (fun _ => 0) (fun _ => 1) in
  let argmax_acquisition := fun (_ : Surrogate) (f_min : R) => [f_min] in
  let F := fun p : Point => nth 0 p 0 - 1 in
  exists D,
    ego_loop model argmax_acquisition F 2 2
      {| X := [[0]; [7]; [25]]; Y := [4; 1; 9]; i := 0 |} = Done D
    /\ i D = 2%nat /\ length (X D) = 5%nat /\ length (Y D) = 5%nat.
Proof.
  intros model argmax_acquisition F.
  destruct (ego_loop_budget model argmax_acquisition F 2
              [[0]; [7]; [25]] [4; 1; 9])
    as (D & xs & ys & Hrun & _ & Hi & HX & HY & Lx & Ly & _).
  - discriminate.
  - reflexivity.
  - exists D. split; [apply Hrun; lia|]. split; [exact Hi|].
    rewrite HX, HY, !length_app, Lx, Ly. split; reflexivity.
Defined.

End EGOFacts.

(** ** The naive Bayes scorer *)

Module NBFacts.
Import Scipy NB.

Lemma ln_quot x y : 0 < x -> 0 < y -> ln (x / y) = ln x - ln y.
Proof.
  intros Hx Hy. unfold Rdiv.
  rewrite ln_mult, ln_Rinv; [ring|exact Hy|exact Hx|].
  apply Rinv_0_lt_compat; exact Hy.
Qed.

Lemma ln_sqrt_half x : 0 < x -> ln (sqrt x) = ln x / 2.
Proof.
  intros Hx.
  assert (Hs : 0 < sqrt x) by (apply sqrt_lt_R0; exact Hx).
  pose proof (ln_mult (sqrt x) (sqrt x) Hs Hs) as Hm.
  rewrite sqrt_sqrt in Hm by lra. lra.
Qed.

Lemma sqrt_2PI_pos : 0 < sqrt (2 * PI).
Proof. apply sqrt_lt_R0. pose proof PI_RGT_0; lra. Qed.

Lemma norm_pdf_std_pos x : 0 < norm_pdf_std x.
Proof.
  unfold norm_pdf_std. apply Rdiv_lt_0_compat;
    [apply exp_pos|apply sqrt_2PI_pos].
Qed.

(** A Gaussian density is positive exactly when its scale is. *)
Lemma norm_pdf_pos_scale x loc scale :
  0 < norm_pdf x loc scale -> 0 < scale.
Proof.
  unfold norm_pdf; intros Hpos.
  pose proof (norm_pdf_std_pos ((x - loc) / scale)) as Hstd.
  destruct (Rtotal_order scale 0) as [Hneg|[Hz|Hp]]; [| |exact Hp].
  - apply Rinv_lt_0_compat in Hneg. unfold Rdiv at 1 in Hpos. nra.
  - rewrite Hz in Hpos at 2. unfold Rdiv at 1 in Hpos.
    rewrite Rinv_0 in Hpos. lra.
Qed.

Lemma norm_pdf_pos x loc scale : 0 < scale -> 0 < norm_pdf x loc scale.
Proof.
  intros Hs; unfold norm_pdf.
  apply Rdiv_lt_0_compat; [apply norm_pdf_std_pos|exact Hs].
Qed.

Lemma norm_pdf_nonneg x loc scale : 0 <= scale -> 0 <= norm_pdf x loc scale.
Proof.
  intros [Hs| <-].
  - left; apply norm_pdf_pos; exact Hs.
  - unfold norm_pdf, Rdiv. rewrite Rinv_0 at 2. lra.
Qed.

(** scipy's [logpdf] is the logarithm of its [pdf]. *)
Lemma norm_logpdf_ln_pdf x loc scale :
  0 < scale -> norm_logpdf x loc scale = ln (norm_pdf x loc scale).
Proof.
  intros Hs. unfold norm_logpdf, norm_pdf, norm_logpdf_std, norm_pdf_std.
  rewrite ln_quot; [|apply norm_pdf_std_pos|exact Hs].
  unfold norm_pdf_std.
  rewrite ln_quot; [|apply exp_pos|apply sqrt_2PI_pos].
  rewrite ln_exp, ln_sqrt_half by (pose proof PI_RGT_0; lra).
  reflexivity.
Qed.

(** Accumulating logarithms follows the running product. *)
Lemma fold_ln_product (densities : list R) : forall acc,
  0 < acc -> Forall (fun p => 0 < p) densities ->
  0 < fold_left Rmult densities acc
  /\ fold_left Rplus (map ln densities) (ln acc)
     = ln (fold_left Rmult densities acc).
Proof.
  induction densities as [|p t IH]; intros acc Hacc Hpos; simpl.
  - split; [exact Hacc|reflexivity].
  - inversion Hpos as [|? ? Hp Ht]; subst.
    rewrite <- ln_mult by assumption.
    apply IH; [apply Rmult_lt_0_compat; assumption|exact Ht].
Qed.

Lemma Np_std_nonneg a : 0 <= Np.std a.
Proof. apply sqrt_pos. Qed.

Lemma prior_nonneg (n m : nat) : 0 <= INR n / INR m.
Proof.
  destruct m as [|m].
  - simpl. unfold Rdiv. rewrite Rinv_0. lra.
  - apply Rmult_le_pos; [apply pos_INR|].
    left; apply Rinv_0_lt_compat. apply lt_0_INR; lia.
Qed.

Lemma product4_pos a b c e :
  0 <= a -> 0 <= b -> 0 <= c -> 0 <= e -> 0 < a * b * c * e ->
  0 < a /\ 0 < b /\ 0 < c /\ 0 < e.
Proof.
  intros [Ha|<-] [Hb|<-] [Hc|<-] [He|<-] H; try (repeat split; assumption);
    exfalso; revert H; apply Rle_not_lt; right; ring.
Qed.

Section Scores.

Variable data : Np.array2.
Variables H W F : R.

Lemma log_score_M_ln :
  0 < pS0 data ->
  0 < norm_pdf H (mu_HS0 data) (std_HS0 data) ->
  0 < norm_pdf W (mu_WS0 data) (std_WS0 data) ->
  0 < norm_pdf F (mu_FS0 data) (std_FS0 data) ->
  log_score_M data H W F = ln (score_M data H W F).
Proof.
  intros Hp HH HW HF. unfold log_score_M, score_M.
  rewrite (norm_logpdf_ln_pdf _ _ _ (norm_pdf_pos_scale _ _ _ HH)),
    (norm_logpdf_ln_pdf _ _ _ (norm_pdf_pos_scale _ _ _ HW)),
    (norm_logpdf_ln_pdf _ _ _ (norm_pdf_pos_scale _ _ _ HF)).
  pose proof (Rmult_lt_0_compat _ _ Hp HH) as Hpa.
  pose proof (Rmult_lt_0_compat _ _ Hpa HW) as Hpab.
  rewrite (ln_mult _ _ Hpab HF), (ln_mult _ _ Hpa HW), (ln_mult _ _ Hp HH).
  reflexivity.
Qed.

Lemma log_score_F_ln :
  0 < pS1 data ->
  0 < norm_pdf H (mu_HS1 data) (std_HS1 data) ->
  0 < norm_pdf W (mu_WS1 data) (std_WS1 data) ->
  0 < norm_pdf F (mu_FS1 data) (std_FS1 data) ->
  log_score_F data H W F = ln (score_F data H W F).
Proof.
  intros Hp HH HW HF. unfold log_score_F, score_F.
  rewrite (norm_logpdf_ln_pdf _ _ _ (norm_pdf_pos_scale _ _ _ HH)),
    (norm_logpdf_ln_pdf _ _ _ (norm_pdf_pos_scale _ _ _ HW)),
    (norm_logpdf_ln_pdf _ _ _ (norm_pdf_pos_scale _ _ _ HF)).
  pose proof (Rmult_lt_0_compat _ _ Hp HH) as Hpa.
  pose proof (Rmult_lt_0_compat _ _ Hpa HW) as Hpab.
  rewrite (ln_mult _ _ Hpab HF), (ln_mult _ _ Hpa HW), (ln_mult _ _ Hp HH).
  reflexivity.
Qed.

(** The estimated priors and densities are never negative, so a positive
    score has positive factors. *)
Lemma score_M_pos_ln :
  0 < score_M data H W F -> log_score_M data H W F = ln (score_M data H W F).
Proof.
  intros Hpos. unfold score_M in Hpos.
  apply product4_pos in Hpos as (Hp & HH & HW & HF);
    try (apply norm_pdf_nonneg; apply Np_std_nonneg);
    try apply prior_nonneg.
  apply log_score_M_ln; assumption.
Qed.

Lemma score_F_pos_ln :
  0 < score_F data H W F -> log_score_F data H W F = ln (score_F data H W F).
Proof.
  intros Hpos. unfold score_F in Hpos.
  apply product4_pos in Hpos as (Hp & HH & HW & HF);
    try (apply norm_pdf_nonneg; apply Np_std_nonneg);
    try apply prior_nonneg.
  apply log_score_F_ln; assumption.
Qed.

(** With positive scores the posterior ranks the two classes as the
    log-scores do. *)
Lemma proba_lt_iff_log_score_lt :
  0 < score_M data H W F -> 0 < score_F data H W F ->
  (proba_M data H W F < proba_F data H W F
   <-> log_score_M data H W F < log_score_F data H W F).
Proof.
  intros HM HF.
  rewrite (score_M_pos_ln HM), (score_F_pos_ln HF).
  unfold proba_M, proba_F.
  assert (HS : 0 < / (score_M data H W F + score_F data H W F))
    by (apply Rinv_0_lt_compat; lra).
  unfold Rdiv. split; intros Hlt.
  - apply ln_increasing; [exact HM|]. nra.
  - apply ln_lt_inv in Hlt; [|exact HM|exact HF].
    apply Rmult_lt_compat_r; assumption.
Qed.

End Scores.

Lemma sum_map_scale (l : list R) c :
  Np.sum (map (fun s => s * c) l) = Np.sum l * c.
Proof. induction l as [|s l IH]; simpl; [ring|rewrite IH; ring]. Qed.

Lemma sum_pos (l : list R) s :
  Forall (fun p => 0 < p) l -> In s l -> 0 < Np.sum l.
Proof.
  intros Hpos Hin. destruct Hpos as [|p l Hp Hl]; [destruct Hin|].
  clear Hin. simpl. enough (0 <= Np.sum l) by lra.
  induction Hl as [|q l Hq Hl IH]; simpl; lra.
Qed.

(** Softmax relative to any shift [m] gives back the normalised scores. *)
Lemma softmax_shift (scores : list R) (m : R) :
  Forall (fun p => 0 < p) scores ->
  let e := map (fun l => exp (l - m)) (map ln scores) in
  map (fun v => v / Np.sum e) e = posterior scores.
Proof.
  intros Hpos e.
  assert (He : e = map (fun s => s * exp (- m)) scores).
  { unfold e. rewrite map_map. apply map_ext_in. intros s Hs.
    rewrite Forall_forall in Hpos.
    unfold Rminus. rewrite exp_plus, exp_ln by (apply Hpos; exact Hs).
    reflexivity. }
  rewrite He, sum_map_scale, map_map. unfold posterior.
  apply map_ext_in. intros s Hs.
  pose proof (sum_pos scores s Hpos Hs) as HS.
  pose proof (exp_pos (- m)) as Hm.
  field. split; lra.
Qed.

(** The expressions of the notebook are the scorer at two classes and three
    features. *)
Lemma score_M_is_score data H W F :
  score_M data H W F
  = score (pS0 data) [norm_pdf H (mu_HS0 data) (std_HS0 data);
                      norm_pdf W (mu_WS0 data) (std_WS0 data);
                      norm_pdf F (mu_FS0 data) (std_FS0 data)].
Proof. reflexivity. Qed.

Lemma score_F_is_score data H W F :
  score_F data H W F
  = score (pS1 data) [norm_pdf H (mu_HS1 data) (std_HS1 data);
                      norm_pdf W (mu_WS1 data) (std_WS1 data);
                      norm_pdf F (mu_FS1 data) (std_FS1 data)].
Proof. reflexivity. Qed.

Lemma proba_is_posterior data H W F :
  posterior [score_M data H W F; score_F data H W F]
  = [proba_M data H W F; proba_F data H W F].
Proof.
  unfold posterior, proba_M, proba_F; simpl.
  rewrite Rplus_0_r. reflexivity.
Qed.

(** C4: with a positive prior and positive densities the log-score
    accumulated in log-space is the logarithm of the product score; this
    holds for any number of features and for the two classes of the
    notebook. *)
Theorem log_score_eq_ln_score :
  (forall prior densities,
     0 < prior -> Forall (fun p => 0 < p) densities ->
     log_score prior densities = ln (score prior densities))
  /\ (forall data H W F,
        0 < pS0 data ->
        0 < norm_pdf H (mu_HS0 data) (std_HS0 data) ->
        0 < norm_pdf W (mu_WS0 data) (std_WS0 data) ->
        0 < norm_pdf F (mu_FS0 data) (std_FS0 data) ->
        log_score_M data H W F = ln (score_M data H W F))
  /\ (forall data H W F,
        0 < pS1 data ->
        0 < norm_pdf H (mu_HS1 data) (std_HS1 data) ->
        0 < norm_pdf W (mu_WS1 data) (std_WS1 data) ->
        0 < norm_pdf F (mu_FS1 data) (std_FS1 data) ->
        log_score_F data H W F = ln (score_F data H W F)).
Proof.
  split; [|split].
  - intros prior densities Hp Hd. unfold log_score, score.
    apply fold_ln_product; assumption.
  - apply log_score_M_ln.
  - apply log_score_F_ln.
Qed.

(** C8: for positive class scores, dividing each score by the sum of the
    scores gives the same posterior as exponentiating the log-scores
    relative to their maximum and normalising; for the two classes of the
    notebook both rank the classes as the log-scores do. *)
Theorem posterior_softmax_eq_posterior :
  (forall scores,
     Forall (fun p => 0 < p) scores ->
     posterior_softmax (map ln scores) = posterior scores)
  /\ (forall data H W F,
        0 < score_M data H W F -> 0 < score_F data H W F ->
        posterior_softmax [log_score_M data H W F; log_score_F data H W F]
        = [proba_M data H W F; proba_F data H W F]
        /\ (proba_M data H W F < proba_F data H W F
            <-> log_score_M data H W F < log_score_F data H W F)).
Proof.
  split.
  - intros scores Hpos. unfold posterior_softmax.
    apply softmax_shift; exact Hpos.
  - intros data H W F HM HF. split.
    + rewrite (score_M_pos_ln data H W F HM), (score_F_pos_ln data H W F HF).
      change [ln (score_M data H W F); ln (score_F data H W F)]
        with (map ln [score_M data H W F; score_F data H W F]).
      unfold posterior_softmax.
      rewrite softmax_shift by (repeat constructor; assumption).
      unfold posterior, proba_M, proba_F; simpl.
      rewrite Rplus_0_r. reflexivity.
    + apply proba_lt_iff_log_score_lt; assumption.
Qed.

(** C9: the posterior probabilities of the classes sum to 1 as soon as the
    total score is strictly positive: for any list of class scores, and for
    the two classes of the notebook on every dataset on which the estimates
    are defined (class balance is not needed beyond that). *)
Theorem posterior_sums_to_one :
  (forall scores, 0 < Np.sum scores -> Np.sum (posterior scores) = 1)
  /\ (forall data H W F,
        estimable data ->
        0 < score_M data H W F + score_F data H W F ->
        proba_M data H W F + proba_F data H W F = 1).
Proof.
  split.
  - intros scores HS. unfold posterior.
    rewrite NpFacts.sum_map_div. field. lra.
  - intros data H W F _ HS. unfold proba_M, proba_F. field. lra.
Qed.

End NBFacts.

(** ** Rational enclosures of [PI], [exp] and [ln] *)

Module Enclosures.
Import NBFacts.

(** Three and four terms of the Machin-like series [PI_2_3_7_tg]. *)
Lemma PI_bounds : 3.1415 < PI < 3.1421.
Proof.
  pose proof (PI_2_3_7_ineq 1) as [Hlo Hhi].
  unfold PI_2_3_7_tg, tg_alt, Ratan_seq in Hlo, Hhi.
  simpl in Hlo, Hhi.
  split; lra.
Qed.

Lemma PI_cube_bounds : 3.1415 ^ 3 <= PI ^ 3 <= 3.1421 ^ 3.
Proof.
  destruct PI_bounds as [Hlo Hhi].
  split; apply pow_incr; lra.
Qed.

Lemma exp_INR_mult n x : exp (INR n * x) = exp x ^ n.
Proof.
  induction n as [|n IH].
  - simpl. rewrite Rmult_0_l. apply exp_0.
  - rewrite S_INR, Rmult_plus_distr_r, Rmult_1_l, exp_plus, IH.
    simpl; ring.
Qed.

(** The terms [y^k / k!] of the exponential series decrease on [[0, 1]]. *)
Lemma exp_term_decreasing y :
  0 <= y <= 1 -> Un_decreasing (fun k => y ^ k / INR (fact k)).
Proof.
  intros [H0 H1] k.
  assert (Hk : 0 < INR (fact k)) by (apply lt_0_INR, lt_O_fact).
  assert (HSk : 0 < INR (fact (S k))) by (apply lt_0_INR, lt_O_fact).
  assert (Hle : INR (fact k) <= INR (fact (S k))).
  { apply le_INR. simpl. lia. }
  assert (Hyk : 0 <= y ^ k) by (apply pow_le; exact H0).
  apply Rle_trans with (y ^ k / INR (fact (S k))).
  - apply Rmult_le_compat_r; [left; apply Rinv_0_lt_compat; exact HSk|].
    simpl. rewrite <- (Rmult_1_l (y ^ k)) at 2.
    apply Rmult_le_compat_r; assumption.
  - apply Rmult_le_compat_l; [exact Hyk|].
    apply Rinv_le_contravar; assumption.
Qed.

(** [exp(-y)] is the sum of the alternating series of these terms. *)
Lemma exp_neg_series_cv y :
  Un_cv (fun N => sum_f_R0 (tg_alt (fun k => y ^ k / INR (fact k))) N)
        (exp (- y)).
Proof.
  pose proof (proj2_sig (exist_exp (- y))) as Hexp.
  unfold exp_in, infinite_sum in Hexp.
  intros eps Heps. destruct (Hexp eps Heps) as [N HN].
  exists N. intros n Hn. specialize (HN n Hn).
  unfold exp.
  replace (sum_f_R0 (tg_alt (fun k => y ^ k / INR (fact k))) n)
    with (sum_f_R0 (fun i => / INR (fact i) * (- y) ^ i) n); [exact HN|].
  apply sum_eq. intros i _. unfold tg_alt.
  replace (- y) with (-1 * y) by ring.
  rewrite Rpow_mult_distr. unfold Rdiv. ring.
Qed.

Lemma fact_values :
  INR (fact 0) = 1 /\ INR (fact 1) = 1 /\ INR (fact 2) = 2 /\ INR (fact 3) = 6
  /\ INR (fact 4) = 24 /\ INR (fact 5) = 120 /\ INR (fact 6) = 720
  /\ INR (fact 7) = 5040.
Proof.
  repeat split; rewrite INR_IZR_INZ; apply f_equal; reflexivity.
Qed.

(** Partial sums of degree 7 and 6 enclose [exp(-y)] on [[0, 1]]. *)
Lemma exp_neg_bounds y : 0 <= y <= 1 ->
  1 - y + y^2/2 - y^3/6 + y^4/24 - y^5/120 + y^6/720 - y^7/5040 <= exp (- y)
  /\ exp (- y) <= 1 - y + y^2/2 - y^3/6 + y^4/24 - y^5/120 + y^6/720.
Proof.
  intros Hy.
  destruct (alternated_series_ineq (fun k => y ^ k / INR (fact k))
              (exp (- y)) 3) as [Hlo Hhi].
  { apply exp_term_decreasing; exact Hy. }
  { apply cv_speed_pow_fact. }
  { apply exp_neg_series_cv. }
  destruct fact_values as (F0 & F1 & F2 & F3 & F4 & F5 & F6 & F7).
  change (S (2 * 3)) with 7%nat in Hlo. change (2 * 3)%nat with 6%nat in Hhi.
  unfold tg_alt in Hlo, Hhi.
  cbn [sum_f_R0] in Hlo, Hhi.
  rewrite F0, F1, F2, F3, F4, F5, F6 in Hlo, Hhi.
  rewrite F7 in Hlo.
  split.
  - eapply Rle_trans; [|exact Hlo]. right; field.
  - eapply Rle_trans; [exact Hhi|]. right; field.
Qed.

(** [a < ln z] from a rational lower bound [d] of [exp(-a/16)]. *)
Lemma ln_lower_bound (a z d : R) :
  0 <= a / 16 <= 1 ->
  0 <= d ->
  d <= 1 - (a/16) + (a/16)^2/2 - (a/16)^3/6 + (a/16)^4/24 - (a/16)^5/120
         + (a/16)^6/720 - (a/16)^7/5040 ->
  1 < z * d ^ 16 ->
  0 < z ->
  a < ln z.
Proof.
  intros Hy Hd0 Hd Hz Hz0.
  destruct (exp_neg_bounds (a / 16) Hy) as [Hlo _].
  assert (Hpow : d ^ 16 <= exp (- a)).
  { replace (- a) with (INR 16 * (- (a / 16))) by (simpl; field).
    rewrite exp_INR_mult. apply pow_incr. split; lra. }
  assert (Hlt : exp a < z).
  { pose proof (exp_pos a) as Ha. pose proof (exp_pos (- a)) as Hna.
    assert (He : exp a * exp (- a) = 1)
      by (rewrite <- exp_plus, Rplus_opp_r; apply exp_0).
    assert (1 < z * exp (- a)) by nra.
    nra. }
  rewrite <- (ln_exp a). apply ln_increasing; [apply exp_pos|exact Hlt].
Qed.

(** [ln z < b] from a rational upper bound [h] of [exp(-b/16)]. *)
Lemma ln_upper_bound (b z h : R) :
  0 <= b / 16 <= 1 ->
  1 - (b/16) + (b/16)^2/2 - (b/16)^3/6 + (b/16)^4/24 - (b/16)^5/120
    + (b/16)^6/720 <= h ->
  z * h ^ 16 < 1 ->
  0 < z ->
  ln z < b.
Proof.
  intros Hy Hh Hz Hz0.
  destruct (exp_neg_bounds (b / 16) Hy) as [_ Hhi].
  assert (Hpow : exp (- b) <= h ^ 16).
  { replace (- b) with (INR 16 * (- (b / 16))) by (simpl; field).
    rewrite exp_INR_mult. apply pow_incr.
    split; [left; apply exp_pos|lra]. }
  assert (Hlt : z < exp b).
  { pose proof (exp_pos b) as Hb. pose proof (exp_pos (- b)) as Hnb.
    assert (He : exp b * exp (- b) = 1)
      by (rewrite <- exp_plus, Rplus_opp_r; apply exp_0).
    assert (z * exp (- b) < 1) by nra.
    nra. }
  rewrite <- (ln_exp b). apply ln_increasing; assumption.
Qed.

End Enclosures.

(** ** The worked example on [sex_classif.csv] *)

Module SexClassifFacts.
Import Scipy NB NBFacts Enclosures.

Lemma dataM_rows : dataM sex_classif = firstn 4 sex_classif.
Proof.
  unfold dataM, rows_where, sex_classif; simpl.
  repeat (destruct (Req_dec_T _ _) as [?|?]; try lra).
  reflexivity.
Qed.

Lemma dataF_rows : dataF sex_classif = skipn 4 sex_classif.
Proof.
  unfold dataF, rows_where, sex_classif; simpl.
  repeat (destruct (Req_dec_T _ _) as [?|?]; try lra).
  reflexivity.
Qed.

(** [np.std] squares an absolute value. *)
Lemma Np_std_sq a :
  Np.std a = sqrt (Np.mean (map (fun x => (x - Np.mean a) ^ 2) a)).
Proof.
  unfold Np.std. do 2 f_equal. apply map_ext. intros x. apply pow2_abs.
Qed.

Ltac eval_stat :=
  rewrite ?Np_std_sq; unfold Np.mean, Np.col;
  cbn [map nth length Np.sum fold_right firstn skipn INR];
  match goal with
  | |- sqrt _ = sqrt _ => apply f_equal
  | _ => idtac
  end; lra.

(** The parameters estimated for the males. *)
Lemma params_M :
  pS0 sex_classif = 4 / 9
  /\ mu_HS0 sex_classif = 1.78 /\ std_HS0 sex_classif = sqrt (11 / 5000)
  /\ mu_WS0 sex_classif = 80 /\ std_WS0 sex_classif = sqrt (37 / 2)
  /\ mu_FS0 sex_classif = 28.25 /\ std_FS0 sex_classif = sqrt (67 / 16).
Proof.
  unfold pS0, mu_HS0, std_HS0, mu_WS0, std_WS0, mu_FS0, std_FS0.
  rewrite dataM_rows. unfold sex_classif.
  repeat split; eval_stat.
Qed.

(** The parameters estimated for the females. *)
Lemma params_F :
  pS1 sex_classif = 5 / 9
  /\ mu_HS1 sex_classif = 1.636 /\ std_HS1 sex_classif = sqrt (793 / 125000)
  /\ mu_WS1 sex_classif = 57.8 /\ std_WS1 sex_classif = sqrt (2254 / 25)
  /\ mu_FS1 sex_classif = 19 /\ std_FS1 sex_classif = sqrt (34 / 5).
Proof.
  unfold pS1, mu_HS1, std_HS1, mu_WS1, std_WS1, mu_FS1, std_FS1.
  rewrite dataF_rows. unfold sex_classif.
  repeat split; eval_stat.
Qed.

Lemma norm_logpdf_sqrt x mu v :
  0 < v ->
  norm_logpdf x mu (sqrt v)
  = - ((x - mu) ^ 2 / (2 * v)) - ln (2 * PI) / 2 - ln v / 2.
Proof.
  intros Hv. unfold norm_logpdf, norm_logpdf_std.
  assert (Hs : 0 < sqrt v) by (apply sqrt_lt_R0; exact Hv).
  rewrite ln_sqrt_half by exact Hv.
  replace (((x - mu) / sqrt v) ^ 2) with ((x - mu) ^ 2 / v).
  - field. lra.
  - rewrite <- (pow2_sqrt v) at 1 by lra. field. lra.
Qed.

(** A log-score over three Gaussian features splits into a rational part
    and one logarithm. *)
Lemma gaussian3_log_score p x1 m1 v1 x2 m2 v2 x3 m3 v3 :
  0 < p -> 0 < v1 -> 0 < v2 -> 0 < v3 ->
  ln p + norm_logpdf x1 m1 (sqrt v1) + norm_logpdf x2 m2 (sqrt v2)
       + norm_logpdf x3 m3 (sqrt v3)
  = - ((x1 - m1) ^ 2 / (2 * v1) + (x2 - m2) ^ 2 / (2 * v2)
       + (x3 - m3) ^ 2 / (2 * v3))
    - ln ((2 * PI) ^ 3 * (v1 * v2 * v3) / p ^ 2) / 2.
Proof.
  intros Hp H1 H2 H3.
  rewrite !norm_logpdf_sqrt by assumption.
  assert (Hpi : 0 < 2 * PI) by (pose proof PI_RGT_0; lra).
  assert (Hpi3 : 0 < (2 * PI) ^ 3) by (apply pow_lt; exact Hpi).
  assert (Hv : 0 < v1 * v2 * v3)
    by (repeat apply Rmult_lt_0_compat; assumption).
  assert (Hp2 : 0 < p ^ 2) by (apply pow_lt; exact Hp).
  rewrite ln_quot; [|apply Rmult_lt_0_compat; assumption|exact Hp2].
  assert (Hv12 : 0 < v1 * v2) by (apply Rmult_lt_0_compat; assumption).
  rewrite (ln_mult _ _ Hpi3 Hv), (ln_mult _ _ Hv12 H3), (ln_mult _ _ H1 H2).
  rewrite (ln_pow (2 * PI) Hpi 3), (ln_pow p Hp 2).
  simpl INR. field. repeat split; lra.
Qed.

Lemma log_score_M_bounds :
  -21.085 < log_score_M sex_classif 1.81 59 21 < -21.075.
Proof.
  unfold log_score_M.
  destruct params_M as (-> & -> & -> & -> & -> & -> & ->).
  rewrite gaussian3_log_score by lra.
  set (Z := (2 * PI) ^ 3 * (11 / 5000 * (37 / 2) * (67 / 16)) / (4 / 9) ^ 2).
  destruct PI_cube_bounds as [Hplo Hphi].
  assert (HZ : Z = 8 * (11 / 5000 * (37 / 2) * (67 / 16)) / (4 / 9) ^ 2
                   * PI ^ 3)
    by (unfold Z; field).
  assert (HZ0 : 0 < Z) by (rewrite HZ; lra).
  assert (Hlo : 5.3509 < ln Z).
  { apply (ln_lower_bound 5.3509 Z 0.71574504); lra. }
  assert (Hhi : ln Z < 5.3708).
  { apply (ln_upper_bound 5.3708 Z 0.71485549); lra. }
  split; lra.
Qed.

Lemma log_score_F_bounds :
  -6.715 < log_score_F sex_classif 1.81 59 21 < -6.705.
Proof.
  unfold log_score_F.
  destruct params_F as (-> & -> & -> & -> & -> & -> & ->).
  rewrite gaussian3_log_score by lra.
  set (Z := (2 * PI) ^ 3 * (793 / 125000 * (2254 / 25) * (34 / 5))
            / (5 / 9) ^ 2).
  destruct PI_cube_bounds as [Hplo Hphi].
  assert (HZ : Z = 8 * (793 / 125000 * (2254 / 25) * (34 / 5)) / (5 / 9) ^ 2
                   * PI ^ 3)
    by (unfold Z; field).
  assert (HZ0 : 0 < Z) by (rewrite HZ; lra).
  assert (Hlo : 8.0335 < ln Z).
  { apply (ln_lower_bound 8.0335 Z 0.60526196); lra. }
  assert (Hhi : ln Z < 8.0534).
  { apply (ln_upper_bound 8.0534 Z 0.60451127); lra. }
  split; lra.
Qed.

(** On the dataset the priors and all six densities are positive. *)
Lemma factors_M_pos H W F :
  0 < pS0 sex_classif
  /\ 0 < norm_pdf H (mu_HS0 sex_classif) (std_HS0 sex_classif)
  /\ 0 < norm_pdf W (mu_WS0 sex_classif) (std_WS0 sex_classif)
  /\ 0 < norm_pdf F (mu_FS0 sex_classif) (std_FS0 sex_classif).
Proof.
  destruct params_M as (-> & _ & -> & _ & -> & _ & ->).
  split; [lra|].
  repeat split; apply norm_pdf_pos, sqrt_lt_R0; lra.
Qed.

Lemma factors_F_pos H W F :
  0 < pS1 sex_classif
  /\ 0 < norm_pdf H (mu_HS1 sex_classif) (std_HS1 sex_classif)
  /\ 0 < norm_pdf W (mu_WS1 sex_classif) (std_WS1 sex_classif)
  /\ 0 < norm_pdf F (mu_FS1 sex_classif) (std_FS1 sex_classif).
Proof.
  destruct params_F as (-> & _ & -> & _ & -> & _ & ->).
  split; [lra|].
  repeat split; apply norm_pdf_pos, sqrt_lt_R0; lra.
Qed.

Lemma score_M_pos H W F : 0 < score_M sex_classif H W F.
Proof.
  destruct (factors_M_pos H W F) as (Hp & HH & HW & HF).
  unfold score_M.
  apply Rmult_lt_0_compat; [|exact HF].
  apply Rmult_lt_0_compat; [|exact HW].
  apply Rmult_lt_0_compat; assumption.
Qed.

Lemma score_F_pos H W F : 0 < score_F sex_classif H W F.
Proof.
  destruct (factors_F_pos H W F) as (Hp & HH & HW & HF).
  unfold score_F.
  apply Rmult_lt_0_compat; [|exact HF].
  apply Rmult_lt_0_compat; [|exact HW].
  apply Rmult_lt_0_compat; assumption.
Qed.

(** C1: on the nine records the priors are 4/9 for male and 5/9 for
    female; for the input [(H=1.81, W=59, F=21)] the posterior of female is
    strictly above the posterior of male, and the log-scores agree with
    -21.08 (male) and -6.71 (female) to the two printed decimals. *)
Theorem sex_classif_ranks_female :
  pS0 sex_classif = 4 / 9 /\ pS1 sex_classif = 5 / 9
  /\ proba_M sex_classif 1.81 59 21 < proba_F sex_classif 1.81 59 21
  /\ Rabs (log_score_M sex_classif 1.81 59 21 - (-21.08)) < 0.005
  /\ Rabs (log_score_F sex_classif 1.81 59 21 - (-6.71)) < 0.005.
Proof.
  pose proof log_score_M_bounds as HM.
  pose proof log_score_F_bounds as HF.
  split; [apply params_M|]. split; [apply params_F|]. split; [|split].
  - apply proba_lt_iff_log_score_lt;
      [apply score_M_pos|apply score_F_pos|lra].
  - apply Rabs_def1; lra.
  - apply Rabs_def1; lra.
Qed.

Lemma log_score_eq_ln_score_witness :
  log_score_M sex_classif 1.81 59 21 = ln (score_M sex_classif 1.81 59 21)
  /\ log_score (4 / 9) [2; 3] = ln (score (4 / 9) [2; 3]).
Proof.
  destruct log_score_eq_ln_score as (Hgen & HM & _).
  destruct (factors_M_pos 1.81 59 21) as (Hp & HH & HW & HF).
  split.
  - apply HM; assumption.
  - apply Hgen; [lra|repeat constructor; lra].
Defined.

Lemma posterior_softmax_eq_posterior_witness :
  posterior_softmax [log_score_M sex_classif 1.81 59 21;
                     log_score_F sex_classif 1.81 59 21]
  = [proba_M sex_classif 1.81 59 21; proba_F sex_classif 1.81 59 21]
  /\ posterior_softmax (map ln [1; 3]) = posterior [1; 3].
Proof.
  destruct posterior_softmax_eq_posterior as (Hgen & Hcode).
  split.
  - apply Hcode; [apply score_M_pos|apply score_F_pos].
  - apply Hgen. repeat constructor; lra.
Defined.

Lemma sex_classif_estimable : estimable sex_classif.
Proof.
  unfold estimable. rewrite dataM_rows, dataF_rows.
  destruct params_M as (_ & _ & -> & _ & -> & _ & ->).
  destruct params_F as (_ & _ & -> & _ & -> & _ & ->).
  split; [discriminate|]. split; [discriminate|].
  repeat split; apply Rgt_not_eq, sqrt_lt_R0; lra.
Qed.

Lemma posterior_sums_to_one_witness :
  proba_M sex_classif 1.81 59 21 + proba_F sex_classif 1.81 59 21 = 1
  /\ Np.sum (posterior [1; 3]) = 1.
Proof.
  destruct posterior_sums_to_one as (Hgen & Hcode).
  split.
  - apply Hcode; [apply sex_classif_estimable|].
    pose proof (score_M_pos 1.81 59 21). pose proof (score_F_pos 1.81 59 21).
    lra.
  - apply Hgen. simpl. lra.
Defined.

End SexClassifFacts.

(** * Further properties of the two notebooks *)

From Stdlib Require Import Sorted Permutation.

(** ** More on the kernel and the covariance matrix *)

Module GPMore.
Import Np NpFacts GP GPFacts.

Lemma square_length (a : list R) : length (square a) = length a.
Proof. unfold square; apply length_map. Qed.

Lemma broadcast_none f a b :
  ~ broadcastable (length a) (length b) -> broadcast f a b = None.
Proof.
  intros Hn; unfold broadcast, broadcastable in *.
  destruct (Nat.eqb_spec (length a) (length b)); [tauto|].
  destruct (Nat.eqb_spec (length b) 1); [tauto|].
  destruct (Nat.eqb_spec (length a) 1); [tauto|reflexivity].
Qed.

Lemma cov_function_none (d : nat) (p q : Point) (theta : list R) (sig : R) :
  length p = d -> length q = d -> ~ broadcastable d (length theta) ->
  cov_function p q theta sig = None.
Proof.
  intros Hp Hq Hn; unfold cov_function.
  rewrite broadcast_same_length by congruence; simpl.
  rewrite broadcast_none; [reflexivity|].
  rewrite !square_length, zip_with_length by congruence.
  rewrite Hp; exact Hn.
Qed.

(** X1: on two points of one dimension [d], [cov_function] raises exactly
    when numpy cannot broadcast [theta] against that dimension. *)
Theorem cov_function_raises_iff (d : nat) (p q : Point) (theta : list R)
    (sig : R) :
  length p = d -> length q = d ->
  (cov_function p q theta sig = None <-> ~ broadcastable d (length theta)).
Proof.
  intros Hp Hq; split.
  - intros Hnone Hb.
    destruct (cov_function_defined d p q theta sig Hp Hq Hb) as [v Hv].
    congruence.
  - apply cov_function_none; assumption.
Qed.

Lemma cov_function_raises_iff_witness :
  cov_function [0; 1] [1; 2] [1; 2; 3] 1 = None.
Proof.
  apply (cov_function_raises_iff 2 [0; 1] [1; 2] [1; 2; 3] 1);
    try reflexivity.
  unfold broadcastable; simpl; lia.
Defined.









(** X4: the kernel only sees differences: moving both points by the same
    vector does not change it. *)
Theorem cov_function_translation (p q c : Point) (theta : list R) (sig : R) :
  length p = length c -> length q = length c ->
  cov_function (zip_with Rplus p c) (zip_with Rplus q c) theta sig
  = cov_function p q theta sig.
Proof.
  intros Hp Hq. unfold cov_function.
  rewrite !broadcast_same_length; try congruence.
  - simpl. do 3 f_equal.
    assert (H : forall (u v w : Point),
               zip_with Rminus (zip_with Rplus u w) (zip_with Rplus v w)
               = zip_with Rminus u v \/ length u <> length w
                 \/ length v <> length w).
    { induction u as [|x u IH]; intros [|y v] [|z w]; simpl; auto.
      destruct (IH v w) as [->|[H|H]]; [left; f_equal; ring|auto|auto]. }
    destruct (H p q c) as [E|[E|E]]; [exact E|contradiction|contradiction].
  - rewrite !zip_with_length; congruence.
Qed.

Lemma cov_function_translation_witness :
  cov_function (zip_with Rplus [0; 7] [10; 10]) (zip_with Rplus [3; 5] [10; 10])
    [2] 3
  = cov_function [0; 7] [3; 5] [2] 3.
Proof.
  apply (cov_function_translation [0; 7] [3; 5] [10; 10] [2] 3); reflexivity.
Defined.

Lemma mapM_head_none {A B} (f : A -> option B) a l :
  f a = None -> mapM f (a :: l) = None.
Proof. intros H; simpl; rewrite H; reflexivity. Qed.

Lemma broadcastable_dec n m : broadcastable n m \/ ~ broadcastable n m.
Proof. unfold broadcastable; lia. Qed.

(** X5: [cov_matrix] returns the empty matrix for no point at all; for
    points of one dimension [d] it raises exactly when there is a point and
    numpy cannot broadcast [theta] against [d]. *)
Theorem cov_matrix_raises_iff (d : nat) (points : list Point)
    (theta : list R) (sig : R) :
  Forall (fun p => length p = d) points ->
  (cov_matrix points theta sig = None
   <-> points <> [] /\ ~ broadcastable d (length theta)).
Proof.
  intros Hdim; split.
  - intros Hnone.
    destruct points as [|p rest]; [discriminate|].
    split; [discriminate|]. intros Hb.
    destruct (cov_matrix_spec (p :: rest) theta sig (kernel_of theta sig))
      as (K & HK & _); [|congruence].
    intros u v Hu Hv. unfold kernel_of.
    rewrite Forall_forall in Hdim.
    destruct (cov_function_defined d u v theta sig) as [w ->]; auto.
  - intros [Hne Hn].
    destruct points as [|p rest]; [congruence|].
    inversion Hdim as [|? ? Hp _]; subst.
    unfold cov_matrix, enumerate; cbn [enumerate_from cov_matrix_loop].
    rewrite mapM_head_none; [reflexivity|].
    apply (cov_function_none (length p)); auto.
Qed.

Lemma cov_matrix_raises_iff_witness :
  cov_matrix [[0; 1]; [7; 2]] [1; 2; 3] 1 = None
  /\ cov_matrix [] [1; 2; 3] 1 <> None.
Proof.
  split.
  - apply (cov_matrix_raises_iff 2 [[0; 1]; [7; 2]] [1; 2; 3] 1).
    + repeat constructor.
    + split; [discriminate|]. unfold broadcastable; simpl; lia.
  - intros H.
    apply (cov_matrix_raises_iff 2 [] [1; 2; 3] 1) in H; [|constructor].
    destruct H as [H _]; congruence.
Defined.

Section Stored.

Variables (d : nat) (points : list Point) (theta : list R) (sig : R).
Variable K : list (list R).
Hypothesis dim_ok : Forall (fun p => length p = d) points.
Hypothesis theta_ok : broadcastable d (length theta).
Hypothesis K_ok : cov_matrix points theta sig = Some K.

Lemma K_entries r c pr pc :
  nth_error points r = Some pr -> nth_error points c = Some pc ->
  entry K r c = Some (kernel_of theta sig pc pr)
  /\ cov_function pc pr theta sig = Some (kernel_of theta sig pc pr).
Proof.
  intros Hr Hc.
  destruct (cov_matrix_spec points theta sig (kernel_of theta sig)
              (kernel_of_ok d points theta sig dim_ok theta_ok))
    as (K0 & Hrun & _ & Hentry).
  rewrite K_ok in Hrun; injection Hrun as <-.
  split; [apply Hentry; assumption|].
  apply (kernel_of_ok d points theta sig dim_ok theta_ok);
    eapply nth_error_In; eassumption.
Qed.

Lemma K_shape : square_shape (length points) K.
Proof.
  destruct (cov_matrix_spec points theta sig (kernel_of theta sig)
              (kernel_of_ok d points theta sig dim_ok theta_ok))
    as (K0 & Hrun & Hshape & _).
  rewrite K_ok in Hrun; injection Hrun as <-. exact Hshape.
Qed.


Lemma K_col_is_cov_vect k xk :
  nth_error points k = Some xk ->
  col k K = map (kernel_of theta sig xk) points.
Proof.
  intros Hk. destruct K_shape as [HL HW].
  apply nth_error_ext; intros r. unfold col. rewrite !nth_error_map.
  destruct (nth_error points r) as [pr|] eqn:Er.
  - destruct (K_entries r k pr xk Er Hk) as [He _].
    unfold entry in He.
    destruct (nth_error K r) as [row|]; simpl in *; [|discriminate].
    f_equal. apply nth_error_nth; exact He.
  - apply nth_error_None in Er.
    assert (E : nth_error K r = None) by (apply nth_error_None; lia).
    rewrite E; reflexivity.
Qed.

End Stored.

(** X6: at a stored point the vector that [cov_vect] returns is the matching
    column of the matrix that [cov_matrix] returns, and also its matching
    row. *)
Theorem cov_vect_is_column (d : nat) (points : list Point) (theta : list R)
    (sig : R) (K : list (list R)) (k : nat) (xk : Point) :
  Forall (fun p => length p = d) points ->
  broadcastable d (length theta) ->
  cov_matrix points theta sig = Some K ->
  nth_error points k = Some xk ->
  cov_vect xk points theta sig = Some (col k K)
  /\ nth_error K k = Some (col k K).
Proof.
  intros Hdim Htheta HK Hk.
  rewrite (K_col_is_cov_vect d points theta sig K Hdim Htheta HK k xk Hk).
  apply (cov_vect_is_row d points theta sig K Hdim Htheta HK k xk Hk).
Qed.

Lemma cov_vect_is_column_witness :
  exists K, cov_matrix [[0]; [7]; [25]] [3] 1 = Some K
            /\ cov_vect [7] [[0]; [7]; [25]] [3] 1 = Some (col 1 K).
Proof.
  destruct (cov_matrix_spec [[0]; [7]; [25]] [3] 1 (kernel_of [3] 1))
    as (K & HK & _).
  { apply (kernel_of_ok 1); [repeat constructor|right; left; reflexivity]. }
  exists K; split; [exact HK|].
  apply (cov_vect_is_column 1 [[0]; [7]; [25]] [3] 1 K 1 [7]);
    [repeat constructor|right; left; reflexivity|exact HK|reflexivity].
Defined.



Lemma unit_rows_differ n i j :
  (i < n)%nat -> i <> j ->
  map (fun c => if Nat.eqb i c then 1 else 0) (seq 0 n)
  <> map (fun c => if Nat.eqb j c then 1 else 0) (seq 0 n).
Proof.
  intros Hi Hij E.
  assert (H : nth_error (map (fun c => if Nat.eqb i c then 1 else 0) (seq 0 n)) i
              = nth_error (map (fun c => if Nat.eqb j c then 1 else 0) (seq 0 n)) i)
    by (rewrite E; reflexivity).
  rewrite !nth_error_map, nth_error_seq0 in H by exact Hi. simpl in H.
  rewrite Nat.eqb_refl in H.
  destruct (Nat.eqb_spec j i); [congruence|].
  injection H as H. lra.
Qed.

(** X8: when a point is stored twice the covariance matrix has two equal
    rows and no inverse. *)
Theorem cov_matrix_duplicate_singular (d : nat) (points : list Point)
    (theta : list R) (sig : R) (K : list (list R)) (i j : nat) (x : Point) :
  Forall (fun p => length p = d) points ->
  broadcastable d (length theta) ->
  cov_matrix points theta sig = Some K ->
  i <> j -> nth_error points i = Some x -> nth_error points j = Some x ->
  nth_error K i = nth_error K j
  /\ forall K_inv, ~ is_inverse (length points) K K_inv.
Proof.
  intros Hdim Htheta HK Hij Hi Hj.
  destruct (cov_vect_is_row d points theta sig K Hdim Htheta HK i x Hi)
    as [_ Hrow_i].
  destruct (cov_vect_is_row d points theta sig K Hdim Htheta HK j x Hj)
    as [_ Hrow_j].
  split; [congruence|].
  intros K_inv [Hinv _].
  assert (Hi' : (i < length points)%nat) by (apply nth_error_Some; congruence).
  assert (Hj' : (j < length points)%nat) by (apply nth_error_Some; congruence).
  pose proof (nth_error_mat_mul K K_inv i _ Hrow_i) as Hmi.
  pose proof (nth_error_mat_mul K K_inv j _ Hrow_j) as Hmj.
  rewrite Hinv, nth_error_eye in Hmi, Hmj by assumption.
  apply (unit_rows_differ (length points) i j Hi' Hij). congruence.
Qed.

Lemma cov_matrix_duplicate_singular_witness :
  exists K, cov_matrix [[0]; [7]; [0]] [3] 1 = Some K
            /\ forall K_inv, ~ is_inverse 3 K K_inv.
Proof.
  destruct (cov_matrix_spec [[0]; [7]; [0]] [3] 1 (kernel_of [3] 1))
    as (K & HK & _).
  { apply (kernel_of_ok 1); [repeat constructor|right; left; reflexivity]. }
  exists K; split; [exact HK|].
  apply (cov_matrix_duplicate_singular 1 [[0]; [7]; [0]] [3] 1 K 0 2 [0]);
    [repeat constructor|right; left; reflexivity|exact HK|lia|reflexivity
    |reflexivity].
Defined.

End GPMore.

(** ** The objective function *)

Module ObjectiveFacts.
Import Objective Enclosures.

(** X9: the objective is symmetric about 3.5 and never farther from 0 than
    its argument is from 3.5. *)
Theorem fun_symmetric_bounded (t x : R) :
  fun_ (3.5 + t) = fun_ (3.5 - t) /\ Rabs (fun_ x) <= Rabs (x - 3.5).
Proof.
  unfold fun_; split.
  - replace (3.5 + t - 3.5) with t by lra.
    replace (3.5 - t - 3.5) with (- t) by lra.
    replace (- t / PI) with (- (t / PI)) by (unfold Rdiv; ring).
    rewrite sin_neg. ring.
  - rewrite Rabs_mult.
    rewrite <- (Rmult_1_r (Rabs (x - 3.5))) at 2.
    apply Rmult_le_compat_l; [apply Rabs_pos|].
    apply Rabs_le. apply SIN_bound.
Qed.

Lemma PI_sqr_bounds : 9.86 < PI * PI < 9.88.
Proof. destruct PI_bounds as [Hlo Hhi]. split; nra. Qed.

Lemma tsin_nonneg t : - (PI * PI) <= t <= PI * PI -> 0 <= t * sin (t / PI).
Proof.
  intros [Hlo Hhi]. pose proof PI_RGT_0 as Hpi.
  destruct (Rle_lt_dec 0 t) as [Ht|Ht].
  - apply Rmult_le_pos; [exact Ht|].
    apply sin_ge_0.
    + apply Rmult_le_pos; [exact Ht|left; apply Rinv_0_lt_compat; exact Hpi].
    + apply (Rmult_le_reg_r PI); [exact Hpi|].
      unfold Rdiv. rewrite Rmult_assoc, Rinv_l by lra. lra.
  - replace (t * sin (t / PI)) with ((- t) * sin (- t / PI)).
    + apply Rmult_le_pos; [lra|].
      apply sin_ge_0.
      * apply Rmult_le_pos; [lra|left; apply Rinv_0_lt_compat; exact Hpi].
      * apply (Rmult_le_reg_r PI); [exact Hpi|].
        unfold Rdiv. rewrite Rmult_assoc, Rinv_l by lra. lra.
    + replace (- t / PI) with (- (t / PI)) by (unfold Rdiv; ring).
      rewrite sin_neg. ring.
Qed.

(** X10: on the search interval [[0, 25]] the objective is non-negative up
    to 13, yet it takes the value [-3*PI^2/2] at [3.5 + 3*PI^2/2], a point of
    the interval. *)
Theorem fun_sign (x : R) :
  (0 <= x <= 13 -> 0 <= fun_ x)
  /\ fun_ (3.5 + 3 * (PI * PI) / 2) = - (3 * (PI * PI) / 2)
  /\ 13 < 3.5 + 3 * (PI * PI) / 2 < 25.
Proof.
  pose proof PI_sqr_bounds as [Hlo Hhi].
  split; [|split].
  - intros Hx. unfold fun_. apply tsin_nonneg. lra.
  - unfold fun_.
    replace (3.5 + 3 * (PI * PI) / 2 - 3.5) with (3 * (PI * PI) / 2) by lra.
    replace (3 * (PI * PI) / 2 / PI) with (3 * (PI / 2))
      by (field; apply PI_neq0).
    rewrite sin_3PI2. ring.
  - lra.
Qed.

Lemma fun_sign_witness : 0 <= fun_ 7.
Proof. apply (fun_sign 7). lra. Defined.

End ObjectiveFacts.

(** ** Ties among the multi-start optimisations *)

Module HyperOptMore.
Import HyperOpt.

(** The scan of [np.argmin] keeps the first of the smallest values: all
    values before the index kept are strictly larger. *)
Lemma argmin_from_first : forall l pre best_i best,
  nth_error pre best_i = Some best ->
  (forall v, In v pre -> best <= v) ->
  (forall k v, (k < best_i)%nat -> nth_error pre k = Some v -> best < v) ->
  exists m,
    nth_error (pre ++ l) (argmin_from best_i best (length pre) l) = Some m
    /\ (forall v, In v (pre ++ l) -> m <= v)
    /\ (forall k v, (k < argmin_from best_i best (length pre) l)%nat ->
          nth_error (pre ++ l) k = Some v -> m < v).
Proof.
  induction l as [|v t IH]; intros pre best_i best Hbest Hmin Hfirst; simpl.
  - exists best; rewrite app_nil_r; auto.
  - destruct (Rlt_dec v best) as [Hlt|Hge].
    + destruct (IH (pre ++ [v]) (length pre) v) as (m & Hm & Hall & Hf).
      * rewrite nth_error_app2, Nat.sub_diag by lia; reflexivity.
      * intros w Hw; apply in_app_or in Hw; destruct Hw as [Hw|[<-|[]]].
        -- apply Hmin in Hw; lra.
        -- lra.
      * intros k w Hk Hw. rewrite nth_error_app1 in Hw by exact Hk.
        apply nth_error_In in Hw. apply Hmin in Hw. lra.
      * rewrite length_app, Nat.add_1_r in Hm, Hf; simpl in Hm, Hf.
        rewrite <- app_assoc in Hm, Hall, Hf; simpl in Hm, Hall, Hf.
        exists m; auto.
    + destruct (IH (pre ++ [v]) best_i best) as (m & Hm & Hall & Hf).
      * rewrite nth_error_app1; [exact Hbest|].
        apply nth_error_Some; congruence.
      * intros w Hw; apply in_app_or in Hw; destruct Hw as [Hw|[<-|[]]].
        -- apply Hmin; exact Hw.
        -- lra.
      * intros k w Hk Hw.
        assert (Hbi : (best_i < length pre)%nat)
          by (apply nth_error_Some; congruence).
        rewrite nth_error_app1 in Hw by lia.
        apply (Hfirst k w Hk Hw).
      * rewrite length_app, Nat.add_1_r in Hm, Hf; simpl in Hm, Hf.
        rewrite <- app_assoc in Hm, Hall, Hf; simpl in Hm, Hall, Hf.
        exists m; auto.
Qed.

Lemma argmin_first l r :
  argmin l = Some r ->
  exists m, nth_error l r = Some m
            /\ (forall v, In v l -> m <= v)
            /\ (forall k v, (k < r)%nat -> nth_error l k = Some v -> m < v).
Proof.
  destruct l as [|v t]; simpl; [discriminate|]. intros [= <-].
  apply (argmin_from_first t [v] 0%nat v); [reflexivity| |].
  - intros w [<-|[]]; lra.
  - intros k w Hk; lia.
Qed.

(** X11: among the successful runs the one kept is the first that reaches
    the lowest objective: every successful run before it is strictly worse,
    every successful run after it is not better. *)
Theorem select_opt_first_best (opt_all : list OptimizeResult)
    (opt : OptimizeResult) :
  select_opt opt_all = Some opt ->
  exists before after,
    filter success opt_all = before ++ opt :: after
    /\ (forall o, In o before -> fun_ opt < fun_ o)
    /\ (forall o, In o after -> fun_ opt <= fun_ o).
Proof.
  unfold select_opt.
  destruct (argmin (map fun_ (filter success opt_all))) as [r|] eqn:Er;
    simpl; [|discriminate].
  intros Hopt.
  destruct (argmin_first _ _ Er) as (m & Hm & Hall & Hfirst).
  rewrite nth_error_map, Hopt in Hm; simpl in Hm. injection Hm as <-.
  destruct (nth_error_split _ _ Hopt) as (before & after & Hsplit & Hlen).
  exists before, after. split; [exact Hsplit|]. split.
  - intros o Ho.
    destruct (In_nth_error _ _ Ho) as [k Hk].
    assert (Hkr : (k < r)%nat)
      by (rewrite <- Hlen; apply nth_error_Some; congruence).
    apply (Hfirst k (fun_ o) Hkr).
    rewrite nth_error_map, Hsplit, nth_error_app1, Hk by lia. reflexivity.
  - intros o Ho. apply Hall. apply in_map. rewrite Hsplit.
    apply in_or_app; right; right; exact Ho.
Qed.

(** Two successful runs reach the same objective: the earlier one is kept. *)
Lemma select_opt_first_best_witness :
  let opt_all := [mkOpt true 4 [6]; mkOpt false 0 [1]; mkOpt true 2 [12];
                  mkOpt true 2 [18]; mkOpt true 3 [25]] in
  exists opt before after,
    select_opt opt_all = Some opt
    /\ filter success opt_all = before ++ opt :: after
    /\ (forall o, In o before -> fun_ opt < fun_ o).
Proof.
  intros opt_all.
  destruct (select_opt opt_all) as [opt|] eqn:E.
  - destruct (select_opt_first_best opt_all opt E)
      as (before & after & Hs & Hb & _).
    exists opt, before, after; auto.
  - exfalso. unfold select_opt in E. simpl in E.
    destruct (Rlt_dec 2 4); [|lra].
    destruct (Rlt_dec 2 2); [lra|].
    destruct (Rlt_dec 3 2); [lra|]. simpl in E. discriminate.
Defined.

End HyperOptMore.

(** ** Evaluation of a fitted classifier *)

Module EvalFacts.
Import Eval.

Lemma broadcast2_same {A B C} (f : A -> B -> C) a b :
  length a = length b ->
  broadcast2 f a b = Some (map (fun '(x, y) => f x y) (combine a b)).
Proof. intros H; unfold broadcast2; rewrite H, Nat.eqb_refl; reflexivity. Qed.



Lemma indices_from_length (mask : list bool) : forall k,
  length (filter (fun '(_, j) => Bool.eqb j true) (Np.enumerate_from k mask))
  = count_true mask.
Proof.
  unfold count_true.
  induction mask as [|j mask IH]; intros k; simpl; [reflexivity|].
  destruct j; simpl; rewrite IH; reflexivity.
Qed.

Lemma indices_where_length mask :
  length (indices_where mask) = count_true mask.
Proof.
  unfold indices_where, Np.enumerate.
  rewrite length_map. apply indices_from_length.
Qed.






Lemma count_true_le (mask : list bool) : (count_true mask <= length mask)%nat.
Proof. unfold count_true. apply filter_length_le. Qed.

Lemma count_true_zero (mask : list bool) :
  count_true mask = 0%nat <-> Forall (fun j => j = false) mask.
Proof.
  unfold count_true. induction mask as [|j mask IH]; simpl.
  - split; [constructor|reflexivity].
  - destruct j; simpl.
    + split; [discriminate|]. intros H; inversion H; discriminate.
    + rewrite IH. split; [constructor; auto|intros H; inversion H; auto].
Qed.

Section LabelFacts.

Variables label row : Type.
Variable label_eqb : label -> label -> bool.
Hypothesis label_eqb_spec : forall a b, label_eqb a b = true <-> a = b.

Local Abbreviation not_equal := (Eval.not_equal label label_eqb).
Local Abbreviation find_misclassified :=
  (Eval.find_misclassified label row label_eqb).
Local Abbreviation generalization_error :=
  (Eval.generalization_error label label_eqb).


Lemma not_equal_all_false (a b : list label) :
  length a = length b ->
  (Forall (fun j => j = false)
          (map (fun '(x, y) => negb (label_eqb x y)) (combine a b))
   <-> a = b).
Proof.
  revert b; induction a as [|x a IH]; intros [|y b] H; simpl in *;
    try discriminate.
  - split; [reflexivity|constructor].
  - injection H as H. split.
    + intros HF; inversion HF as [|? ? Hj Hrest]; subst.
      apply negb_false_iff, label_eqb_spec in Hj.
      f_equal; [exact Hj|apply IH; assumption].
    + intros [= -> ->]. constructor.
      * apply negb_false_iff, label_eqb_spec; reflexivity.
      * apply IH; auto.
Qed.





(** X16: for a prediction with one entry per true label the
    generalization error lies between 0 and 1, is 0 exactly when every
    prediction is right, and is the number of indices listed by the cell
    "Find misclassified examples" divided by the number of test labels. *)
Theorem generalization_error_spec (prediction ytest : list label) :
  length prediction = length ytest -> ytest <> [] ->
  exists e,
    generalization_error prediction ytest = Some e
    /\ 0 <= e <= 1
    /\ (e = 0 <-> prediction = ytest)
    /\ (forall (Xtest : list row) misclass Xmisclass ymisclass
               misclass_indices,
          find_misclassified Xtest ytest prediction
          = Some (misclass, Xmisclass, ymisclass, misclass_indices) ->
          e = INR (length misclass_indices) / INR (length ytest)).
Proof.
  intros Hlen Hne.
  unfold Eval.generalization_error, Eval.find_misclassified, Eval.not_equal.
  rewrite broadcast2_same by exact Hlen; simpl.
  set (m := map (fun '(x, y) => negb (label_eqb x y))
                (combine prediction ytest)).
  assert (Hm : length m = length ytest).
  { unfold m. rewrite length_map, length_combine. lia. }
  assert (Hn : 0 < INR (length ytest)).
  { apply lt_0_INR. destruct ytest; [congruence|simpl; lia]. }
  eexists; split; [reflexivity|].
  pose proof (count_true_le m) as Hle. rewrite Hm in Hle.
  apply le_INR in Hle. pose proof (pos_INR (count_true m)) as Hpos.
  split; [|split].
  - split.
    + apply Rmult_le_pos; [exact Hpos|left; apply Rinv_0_lt_compat; exact Hn].
    + apply (Rmult_le_reg_r (INR (length ytest))); [exact Hn|].
      unfold Rdiv. rewrite Rmult_assoc, Rinv_l by lra. lra.
  - rewrite <- (not_equal_all_false prediction ytest Hlen).
    fold m. rewrite <- count_true_zero.
    split.
    + intros He.
      assert (H0 : INR (count_true m) = 0).
      { apply (Rmult_eq_reg_r (/ INR (length ytest))).
        - rewrite Rmult_0_l. exact He.
        - apply Rinv_neq_0_compat. lra. }
      apply INR_eq. exact H0.
    + intros ->. unfold Rdiv; simpl; ring.
  - intros Xtest misclass Xm ym idx.
    destruct (mask_select Xtest m); simpl; [|discriminate].
    destruct (mask_select ytest m); simpl; [|discriminate].
    intros [= <- <- <- <-].
    rewrite indices_where_length. reflexivity.
Qed.

End LabelFacts.




Lemma generalization_error_spec_witness :
  exists e,
    Eval.generalization_error bool Bool.eqb [true; true; false; false]
      [true; false; true; false] = Some e
    /\ 0 <= e <= 1.
Proof.
  destruct (generalization_error_spec bool nat Bool.eqb eqb_true_iff
              [true; true; false; false] [true; false; true; false])
    as (e & He & Hr & _).
  - reflexivity.
  - discriminate.
  - exists e; split; assumption.
Defined.


(** *** [shuffle_and_split] *)

Lemma mapM_length {A B} (f : A -> option B) l r :
  mapM f l = Some r -> length r = length l.
Proof.
  revert r; induction l as [|a l IH]; intros r; simpl.
  - intros [= <-]; reflexivity.
  - destruct (f a); simpl; [|discriminate].
    destruct (mapM f l) as [bs|]; simpl; [|discriminate].
    intros [= <-]. simpl. rewrite (IH bs eq_refl). reflexivity.
Qed.

Lemma mapM_nth_error_id {A} (l : list A) : forall pre,
  mapM (nth_error (pre ++ l)) (seq (length pre) (length l)) = Some l.
Proof.
  induction l as [|a l IH]; intros pre; simpl; [reflexivity|].
  rewrite nth_error_app2, Nat.sub_diag by lia; simpl.
  specialize (IH (pre ++ [a])).
  rewrite length_app, Nat.add_1_r, <- app_assoc in IH; simpl in IH.
  rewrite IH. reflexivity.
Qed.

(** Reading a list along a permutation of indices permutes the list. *)
Lemma mapM_permutation {A B} (f : A -> option B) (l1 l2 : list A) :
  Permutation l1 l2 ->
  forall r1, mapM f l1 = Some r1 ->
  exists r2, mapM f l2 = Some r2 /\ Permutation r1 r2.
Proof.
  induction 1 as [|a l1 l2 Hp IH|a b l|l1 l2 l3 H12 IH12 H23 IH23];
    intros r1; simpl.
  - intros [= <-]; exists []; auto.
  - destruct (f a) as [fa|]; simpl; [|discriminate].
    destruct (mapM f l1) as [r|]; simpl; [|discriminate].
    intros [= <-]. destruct (IH r eq_refl) as (r2 & -> & Hr).
    simpl. exists (fa :: r2); auto.
  - destruct (f b) as [fb|]; simpl; [|discriminate].
    destruct (f a) as [fa|]; simpl; [|discriminate].
    destruct (mapM f l) as [r|]; simpl; [|discriminate].
    intros [= <-]. exists (fa :: fb :: r). split; [reflexivity|constructor].
  - intros H1. destruct (IH12 r1 H1) as (r2 & H2 & P12).
    destruct (IH23 r2 H2) as (r3 & H3 & P23).
    exists r3; split; [exact H3|]. eapply Permutation_trans; eassumption.
Qed.

Lemma nth_error_combine {A B} (X : list A) (y : list B) : forall i,
  nth_error (combine X y) i
  = match nth_error X i, nth_error y i with
    | Some a, Some b => Some (a, b)
    | _, _ => None
    end.
Proof.
  revert y; induction X as [|a X IH]; intros [|b y] [|i]; simpl;
    try reflexivity.
  - destruct (nth_error X i); reflexivity.
  - apply IH.
Qed.

Lemma mapM_combine {A B} (X : list A) (y : list B) indices X0 y0 :
  mapM (nth_error X) indices = Some X0 ->
  mapM (nth_error y) indices = Some y0 ->
  mapM (nth_error (combine X y)) indices = Some (combine X0 y0).
Proof.
  revert X0 y0; induction indices as [|i indices IH]; intros X0 y0; simpl.
  - intros [= <-] [= <-]; reflexivity.
  - rewrite nth_error_combine.
    destruct (nth_error X i) as [a|]; simpl; [|discriminate].
    destruct (mapM (nth_error X) indices) as [Xs|]; simpl; [|discriminate].
    intros [= <-].
    destruct (nth_error y i) as [b|]; simpl; [|discriminate].
    destruct (mapM (nth_error y) indices) as [ys|]; simpl; [|discriminate].
    intros [= <-]. rewrite (IH Xs ys eq_refl eq_refl). reflexivity.
Qed.

Lemma combine_split_at {A B} (n : nat) : forall (X : list A) (y : list B),
  combine (firstn n X) (firstn n y) ++ combine (skipn n X) (skipn n y)
  = combine X y.
Proof.
  induction n as [|n IH]; intros [|a X] [|b y]; simpl; try reflexivity.
  - rewrite combine_nil. reflexivity.
  - rewrite IH. reflexivity.
Qed.

(** With a permutation of the row numbers, shuffling succeeds on arrays of
    one length and permutes the pairs of a row and its label. *)
Lemma shuffle_permutes {A B} (indices : list nat) (X : list A) (y : list B) :
  Permutation indices (seq 0 (length X)) -> length X = length y ->
  exists X0 y0,
    shuffle indices X y = Some (X0, y0)
    /\ length X0 = length X /\ length y0 = length X
    /\ Permutation X0 X /\ Permutation y0 y
    /\ Permutation (combine X0 y0) (combine X y).
Proof.
  intros Hperm Hlen. unfold shuffle.
  replace (Nat.eqb (length X) (length y)) with true
    by (symmetry; apply Nat.eqb_eq; exact Hlen).
  pose proof (mapM_nth_error_id X []) as HX. simpl in HX.
  pose proof (mapM_nth_error_id y []) as Hy. simpl in Hy.
  rewrite <- Hlen in Hy.
  destruct (mapM_permutation _ _ _ (Permutation_sym Hperm) X HX)
    as (X0 & HX0 & PX).
  destruct (mapM_permutation _ _ _ (Permutation_sym Hperm) y Hy)
    as (y0 & Hy0 & Py).
  rewrite HX0, Hy0; simpl. exists X0, y0.
  split; [reflexivity|].
  rewrite (mapM_length _ _ _ HX0), (mapM_length _ _ _ Hy0).
  rewrite (Permutation_length Hperm), length_seq.
  split; [reflexivity|]. split; [reflexivity|].
  split; [apply Permutation_sym; exact PX|].
  split; [apply Permutation_sym; exact Py|].
  pose proof (mapM_combine X y indices X0 y0 HX0 Hy0) as Hc.
  pose proof (mapM_nth_error_id (combine X y) []) as Hid. simpl in Hid.
  rewrite length_combine, <- Hlen, Nat.min_id in Hid.
  destruct (mapM_permutation _ _ _ Hperm _ Hc) as (r & Hr & Pr).
  rewrite Hid in Hr. injection Hr as <-. exact Pr.
Qed.

(** X17: when [shuffle] draws a permutation of the row numbers,
    [shuffle_and_split] raises exactly when [X] and [y] have not the same
    number of rows; otherwise the training part has [min n N] rows, the
    test part the [N - n] others, features and labels alike. *)
Theorem shuffle_and_split_sizes {A B : Type} (indices : list nat)
    (X : list A) (y : list B) (n : nat) :
  Permutation indices (seq 0 (length X)) ->
  (shuffle_and_split indices X y n = None <-> length X <> length y)
  /\ (forall Xtrain ytrain Xtest ytest,
        shuffle_and_split indices X y n = Some (Xtrain, ytrain, Xtest, ytest) ->
        length Xtrain = Nat.min n (length X)
        /\ length ytrain = Nat.min n (length X)
        /\ length Xtest = (length X - n)%nat
        /\ length ytest = (length X - n)%nat).
Proof.
  intros Hperm. unfold shuffle_and_split, np_split.
  destruct (Nat.eq_dec (length X) (length y)) as [Hlen|Hlen].
  - destruct (shuffle_permutes indices X y Hperm Hlen)
      as (X0 & y0 & -> & HX0 & Hy0 & _); simpl.
    split; [split; [discriminate|contradiction]|].
    intros Xtrain ytrain Xtest ytest [= <- <- <- <-].
    rewrite !length_firstn, !length_skipn, HX0, Hy0. auto.
  - unfold shuffle. apply Nat.eqb_neq in Hlen as Hb. rewrite Hb; simpl.
    split; [tauto|discriminate].
Qed.

(** X18: [shuffle_and_split] loses and duplicates no sample and keeps every
    row with its own label: the pairs of the training part followed by the
    pairs of the test part are a permutation of the pairs of the data. *)
Theorem shuffle_and_split_partition {A B : Type} (indices : list nat)
    (X : list A) (y : list B) (n : nat) Xtrain ytrain Xtest ytest :
  Permutation indices (seq 0 (length X)) ->
  shuffle_and_split indices X y n = Some (Xtrain, ytrain, Xtest, ytest) ->
  Permutation (combine Xtrain ytrain ++ combine Xtest ytest) (combine X y)
  /\ Permutation (Xtrain ++ Xtest) X
  /\ Permutation (ytrain ++ ytest) y.
Proof.
  intros Hperm. unfold shuffle_and_split, np_split.
  destruct (Nat.eq_dec (length X) (length y)) as [Hlen|Hlen].
  - destruct (shuffle_permutes indices X y Hperm Hlen)
      as (X0 & y0 & -> & HX0 & Hy0 & PX & Py & Hpairs); simpl.
    intros [= <- <- <- <-].
    rewrite combine_split_at, !firstn_skipn. auto.
  - unfold shuffle. apply Nat.eqb_neq in Hlen. rewrite Hlen; simpl.
    discriminate.
Qed.

Lemma perm_201 : Permutation [2; 0; 1]%nat (seq 0 3).
Proof.
  simpl. apply Permutation_sym.
  apply (Permutation_cons_app [2%nat] [1%nat]). simpl. apply perm_swap.
Qed.

Lemma shuffle_and_split_sizes_witness :
  exists Xtrain ytrain Xtest ytest,
    shuffle_and_split [2; 0; 1]%nat [10; 20; 30]%nat [true; false; true] 2
    = Some (Xtrain, ytrain, Xtest, ytest)
    /\ length Xtrain = 2%nat /\ length ytest = 1%nat.
Proof.
  destruct (shuffle_and_split_sizes [2; 0; 1]%nat [10; 20; 30]%nat
              [true; false; true] 2 perm_201) as [_ Hsizes].
  exists [30; 10]%nat, [true; true], [20%nat], [false].
  split; [reflexivity|].
  destruct (Hsizes [30; 10]%nat [true; true] [20%nat] [false] eq_refl)
    as (H1 & _ & _ & H4).
  split; assumption.
Defined.

Lemma shuffle_and_split_partition_witness :
  Permutation (combine [30; 10]%nat [true; true] ++ combine [20%nat] [false])
              (combine [10; 20; 30]%nat [true; false; true]).
Proof.
  apply (shuffle_and_split_partition [2; 0; 1]%nat [10; 20; 30]%nat
           [true; false; true] 2 [30; 10]%nat [true; true] [20%nat] [false]
           perm_201 eq_refl).
Defined.

End EvalFacts.

(** ** More on the hand-written classifier *)

Module NBMore.
Import Scipy NB NBFacts SexClassifFacts Units.

Lemma class_counts (data : list (list R)) :
  (length (rows_where 0 0 data) + length (rows_where 0 1 data)
   <= length data)%nat
  /\ ((length (rows_where 0 0 data) + length (rows_where 0 1 data))%nat
      = length data
      <-> Forall (fun row => nth 0 row 0 = 0 \/ nth 0 row 0 = 1) data).
Proof.
  unfold rows_where.
  induction data as [|row data [IHle IHeq]]; simpl.
  - split; [lia|]. split; [constructor|reflexivity].
  - destruct (Req_dec_T (nth 0 row 0) 0) as [E0|E0];
      destruct (Req_dec_T (nth 0 row 0) 1) as [E1|E1]; simpl.
    + lra.
    + split; [lia|]. split.
      * intros H. constructor; [left; exact E0|]. apply IHeq. lia.
      * intros H; inversion H as [|? ? _ Hrest]; subst.
        apply IHeq in Hrest. lia.
    + split; [lia|]. split.
      * intros H. constructor; [right; exact E1|]. apply IHeq. lia.
      * intros H; inversion H as [|? ? _ Hrest]; subst.
        apply IHeq in Hrest. lia.
    + split; [lia|]. split.
      * intros H. lia.
      * intros H; inversion H as [|? ? Hrow _]; subst. tauto.
Qed.

(** X19: on a non-empty dataset the two priors lie between 0 and 1 and
    their sum is at most 1; the sum is 1 exactly when every record is
    labelled 0 or 1. *)
Theorem priors_spec (data : list (list R)) :
  data <> [] ->
  0 <= pS0 data <= 1 /\ 0 <= pS1 data <= 1
  /\ pS0 data + pS1 data <= 1
  /\ (pS0 data + pS1 data = 1
      <-> Forall (fun row => nth 0 row 0 = 0 \/ nth 0 row 0 = 1) data).
Proof.
  intros Hne. unfold pS0, pS1, dataM, dataF.
  destruct (class_counts data) as [Hle Heq].
  set (a := length (rows_where 0 0 data)) in *.
  set (b := length (rows_where 0 1 data)) in *.
  assert (Hn : 0 < INR (length data)).
  { apply lt_0_INR. destruct data; [congruence|simpl; lia]. }
  pose proof (pos_INR a) as Ha. pose proof (pos_INR b) as Hb.
  assert (Hab : INR a + INR b <= INR (length data))
    by (rewrite <- plus_INR; apply le_INR; exact Hle).
  assert (Hinv : 0 < / INR (length data)) by (apply Rinv_0_lt_compat; lra).
  assert (Hone : INR (length data) * / INR (length data) = 1)
    by (apply Rinv_r; lra).
  unfold Rdiv.
  set (r := / INR (length data)) in *.
  assert (Hx : 0 <= INR a * r) by (apply Rmult_le_pos; lra).
  assert (Hy : 0 <= INR b * r) by (apply Rmult_le_pos; lra).
  assert (Hxy : INR a * r + INR b * r <= 1).
  { rewrite <- Rmult_plus_distr_r, <- Hone.
    apply Rmult_le_compat_r; lra. }
  split; [lra|]. split; [lra|]. split; [lra|].
  rewrite <- Heq. split.
  - intros Hsum. apply INR_eq. rewrite plus_INR.
    apply (Rmult_eq_reg_r r); [|lra]. lra.
  - intros Hsum. rewrite <- Rmult_plus_distr_r, <- plus_INR, Hsum.
    exact Hone.
Qed.

Lemma priors_spec_witness :
  pS0 sex_classif + pS1 sex_classif = 1.
Proof.
  destruct (priors_spec sex_classif) as (_ & _ & _ & Hiff).
  - discriminate.
  - apply Hiff. unfold sex_classif.
    repeat (apply Forall_cons;
            [simpl; first [left; reflexivity|right; reflexivity]|]).
    apply Forall_nil.
Defined.

Section Posterior.

Variable data : list (list R).
Hypothesis Hest : estimable data.
Variables H W F : R.

Lemma estimable_factors :
  0 < pS0 data /\ 0 < pS1 data
  /\ 0 < std_HS0 data /\ 0 < std_WS0 data /\ 0 < std_FS0 data
  /\ 0 < std_HS1 data /\ 0 < std_WS1 data /\ 0 < std_FS1 data.
Proof.
  destruct Hest as (HM & HF & H1 & H2 & H3 & H4 & H5 & H6).
  assert (Hpos : forall l : list (list R), l <> [] -> 0 < INR (length l)).
  { intros l Hl. apply lt_0_INR. destruct l; [congruence|simpl; lia]. }
  assert (Hdata : data <> []).
  { intros ->. apply HM. reflexivity. }
  assert (Hstd : forall a, Np.std a <> 0 -> 0 < Np.std a).
  { intros a Ha. pose proof (Np_std_nonneg a). lra. }
  unfold pS0, pS1.
  repeat split; try (apply Rdiv_lt_0_compat; apply Hpos; assumption);
    apply Hstd; assumption.
Qed.

Lemma estimable_scores_pos :
  0 < score_M data H W F /\ 0 < score_F data H W F.
Proof.
  destruct estimable_factors as (P0 & P1 & S1 & S2 & S3 & S4 & S5 & S6).
  unfold score_M, score_F. split.
  - apply Rmult_lt_0_compat; [|apply norm_pdf_pos; assumption].
    apply Rmult_lt_0_compat; [|apply norm_pdf_pos; assumption].
    apply Rmult_lt_0_compat; [assumption|apply norm_pdf_pos; assumption].
  - apply Rmult_lt_0_compat; [|apply norm_pdf_pos; assumption].
    apply Rmult_lt_0_compat; [|apply norm_pdf_pos; assumption].
    apply Rmult_lt_0_compat; [assumption|apply norm_pdf_pos; assumption].
Qed.

End Posterior.



(** *** A change of origin *)

Section Shift.

Variables cH cW cF : R.
Local Abbreviation sh := (shift_features cH cW cF).

Lemma rows_where_shift v (data : list (list R)) :
  rows_where 0 v (sh data) = sh (rows_where 0 v data).
Proof.
  unfold rows_where, shift_features.
  induction data as [|row data IH]; simpl; [reflexivity|].
  destruct row as [|s [|h [|w [|f [|x r]]]]]; simpl;
    destruct (Req_dec_T _ v); simpl; rewrite IH; reflexivity.
Qed.

Lemma rows_where_width v (data : list (list R)) :
  Forall (fun row => length row = 4%nat) data ->
  Forall (fun row => length row = 4%nat) (rows_where 0 v data).
Proof.
  intros Hw. apply Forall_forall. intros row Hr.
  apply filter_In in Hr as [Hr _].
  rewrite Forall_forall in Hw. apply Hw; exact Hr.
Qed.

Lemma cols_shift (rows : list (list R)) :
  Forall (fun row => length row = 4%nat) rows ->
  Np.col 1 (sh rows) = map (fun x => x + cH) (Np.col 1 rows)
  /\ Np.col 2 (sh rows) = map (fun x => x + cW) (Np.col 2 rows)
  /\ Np.col 3 (sh rows) = map (fun x => x + cF) (Np.col 3 rows).
Proof.
  unfold Np.col, shift_features.
  induction 1 as [|row rows Hrow Hrows (IH1 & IH2 & IH3)]; simpl;
    [repeat split|].
  destruct row as [|s [|h [|w [|f [|x r]]]]]; simpl in Hrow; try discriminate.
  simpl. rewrite IH1, IH2, IH3. repeat split.
Qed.

Lemma mean_shift (a : list R) c :
  a <> [] -> Np.mean (map (fun x => x + c) a) = Np.mean a + c.
Proof.
  intros Hne. unfold Np.mean. rewrite length_map.
  assert (Hn : 0 < INR (length a)).
  { apply lt_0_INR. destruct a; [congruence|simpl; lia]. }
  assert (Hs : Np.sum (map (fun x => x + c) a)
               = Np.sum a + INR (length a) * c).
  { clear. induction a as [|x a IH]; [simpl; ring|].
    cbn [map Np.sum fold_right length]. fold (Np.sum (map (fun x => x + c) a)).
    fold (Np.sum a). rewrite IH, S_INR. ring. }
  rewrite Hs. field. lra.
Qed.

Lemma std_shift (a : list R) c :
  a <> [] -> Np.std (map (fun x => x + c) a) = Np.std a.
Proof.
  intros Hne. unfold Np.std. f_equal.
  rewrite (mean_shift a c Hne).
  unfold Np.mean at 1 3. rewrite !length_map. f_equal. f_equal.
  rewrite map_map. apply map_ext. intros x.
  replace (x + c - (Np.mean a + c)) with (x - Np.mean a) by ring.
  reflexivity.
Qed.

Lemma norm_pdf_shift x mu s c :
  norm_pdf (x + c) (mu + c) s = norm_pdf x mu s.
Proof.
  unfold norm_pdf. replace (x + c - (mu + c)) with (x - mu) by ring.
  reflexivity.
Qed.

Lemma norm_logpdf_shift x mu s c :
  norm_logpdf (x + c) (mu + c) s = norm_logpdf x mu s.
Proof.
  unfold norm_logpdf. replace (x + c - (mu + c)) with (x - mu) by ring.
  reflexivity.
Qed.

Lemma col_nonempty j (rows : list (list R)) :
  rows <> [] -> Np.col j rows <> [].
Proof. destruct rows; [congruence|discriminate]. Qed.

Lemma shift_length (data : list (list R)) : length (sh data) = length data.
Proof. unfold shift_features. apply length_map. Qed.

Variable data : list (list R).
Hypothesis width_ok : Forall (fun row => length row = 4%nat) data.
Hypothesis M_ok : dataM data <> [].
Hypothesis F_ok : dataF data <> [].

Lemma params_M_shift :
  pS0 (sh data) = pS0 data
  /\ mu_HS0 (sh data) = mu_HS0 data + cH /\ std_HS0 (sh data) = std_HS0 data
  /\ mu_WS0 (sh data) = mu_WS0 data + cW /\ std_WS0 (sh data) = std_WS0 data
  /\ mu_FS0 (sh data) = mu_FS0 data + cF /\ std_FS0 (sh data) = std_FS0 data.
Proof.
  unfold pS0, mu_HS0, std_HS0, mu_WS0, std_WS0, mu_FS0, std_FS0, dataM in *.
  rewrite rows_where_shift, !shift_length.
  destruct (cols_shift (rows_where 0 0 data)
              (rows_where_width 0 data width_ok)) as (-> & -> & ->).
  rewrite !mean_shift, !std_shift by (apply col_nonempty; exact M_ok).
  repeat split.
Qed.

Lemma params_F_shift :
  pS1 (sh data) = pS1 data
  /\ mu_HS1 (sh data) = mu_HS1 data + cH /\ std_HS1 (sh data) = std_HS1 data
  /\ mu_WS1 (sh data) = mu_WS1 data + cW /\ std_WS1 (sh data) = std_WS1 data
  /\ mu_FS1 (sh data) = mu_FS1 data + cF /\ std_FS1 (sh data) = std_FS1 data.
Proof.
  unfold pS1, mu_HS1, std_HS1, mu_WS1, std_WS1, mu_FS1, std_FS1, dataF in *.
  rewrite rows_where_shift, !shift_length.
  destruct (cols_shift (rows_where 0 1 data)
              (rows_where_width 1 data width_ok)) as (-> & -> & ->).
  rewrite !mean_shift, !std_shift by (apply col_nonempty; exact F_ok).
  repeat split.
Qed.

End Shift.

(** X21: measuring every feature from another origin, in the data and in
    the input alike, changes none of the scores, log-scores and
    probabilities. *)
Theorem scores_shift_invariant (cH cW cF : R) (data : list (list R))
    (H W F : R) :
  Forall (fun row => length row = 4%nat) data ->
  dataM data <> [] -> dataF data <> [] ->
  let data' := shift_features cH cW cF data in
  score_M data' (H + cH) (W + cW) (F + cF) = score_M data H W F
  /\ score_F data' (H + cH) (W + cW) (F + cF) = score_F data H W F
  /\ log_score_M data' (H + cH) (W + cW) (F + cF) = log_score_M data H W F
  /\ log_score_F data' (H + cH) (W + cW) (F + cF) = log_score_F data H W F
  /\ proba_M data' (H + cH) (W + cW) (F + cF) = proba_M data H W F
  /\ proba_F data' (H + cH) (W + cW) (F + cF) = proba_F data H W F.
Proof.
  intros Hw HM HF data'.
  destruct (params_M_shift cH cW cF data Hw HM)
    as (P0 & M1 & S1 & M2 & S2 & M3 & S3).
  destruct (params_F_shift cH cW cF data Hw HF)
    as (P1 & M4 & S4 & M5 & S5 & M6 & S6).
  assert (EM : score_M data' (H + cH) (W + cW) (F + cF) = score_M data H W F).
  { unfold score_M, data'. rewrite P0, M1, S1, M2, S2, M3, S3.
    rewrite !norm_pdf_shift. reflexivity. }
  assert (EF : score_F data' (H + cH) (W + cW) (F + cF) = score_F data H W F).
  { unfold score_F, data'. rewrite P1, M4, S4, M5, S5, M6, S6.
    rewrite !norm_pdf_shift. reflexivity. }
  split; [exact EM|]. split; [exact EF|]. split; [|split; [|split]].
  - unfold log_score_M, data'. rewrite P0, M1, S1, M2, S2, M3, S3.
    rewrite !norm_logpdf_shift. reflexivity.
  - unfold log_score_F, data'. rewrite P1, M4, S4, M5, S5, M6, S6.
    rewrite !norm_logpdf_shift. reflexivity.
  - unfold proba_M. rewrite EM, EF. reflexivity.
  - unfold proba_F. rewrite EM, EF. reflexivity.
Qed.

Lemma scores_shift_invariant_witness :
  proba_F (shift_features (-1) 10 2 sex_classif) (1.81 + -1) (59 + 10) (21 + 2)
  = proba_F sex_classif 1.81 59 21.
Proof.
  apply (scores_shift_invariant (-1) 10 2 sex_classif 1.81 59 21).
  - unfold sex_classif. repeat constructor.
  - rewrite dataM_rows. discriminate.
  - rewrite dataF_rows. discriminate.
Defined.

(** *** A change of units *)

Section Scale.

Variables aH aW aF : R.
Hypothesis aH_pos : 0 < aH.
Hypothesis aW_pos : 0 < aW.
Hypothesis aF_pos : 0 < aF.
Local Abbreviation sc := (scale_features aH aW aF).

Lemma rows_where_scale v (data : list (list R)) :
  rows_where 0 v (sc data) = sc (rows_where 0 v data).
Proof.
  unfold rows_where, scale_features.
  induction data as [|row data IH]; simpl; [reflexivity|].
  destruct row as [|s [|h [|w [|f [|x r]]]]]; simpl;
    destruct (Req_dec_T _ v); simpl; rewrite IH; reflexivity.
Qed.

Lemma cols_scale (rows : list (list R)) :
  Forall (fun row => length row = 4%nat) rows ->
  Np.col 1 (sc rows) = map (fun x => aH * x) (Np.col 1 rows)
  /\ Np.col 2 (sc rows) = map (fun x => aW * x) (Np.col 2 rows)
  /\ Np.col 3 (sc rows) = map (fun x => aF * x) (Np.col 3 rows).
Proof.
  unfold Np.col, scale_features.
  induction 1 as [|row rows Hrow Hrows (IH1 & IH2 & IH3)]; simpl;
    [repeat split|].
  destruct row as [|s [|h [|w [|f [|x r]]]]]; simpl in Hrow; try discriminate.
  simpl. rewrite IH1, IH2, IH3. repeat split.
Qed.

Lemma sum_scale (l : list R) a :
  Np.sum (map (fun x => a * x) l) = a * Np.sum l.
Proof. induction l as [|x l IH]; simpl; [ring|rewrite IH; ring]. Qed.

Lemma mean_scale (l : list R) a :
  Np.mean (map (fun x => a * x) l) = a * Np.mean l.
Proof.
  unfold Np.mean. rewrite length_map, sum_scale. unfold Rdiv; ring.
Qed.

Lemma mean_squares_nonneg (l : list R) m :
  0 <= Np.mean (map (fun x => (x - m) ^ 2) l).
Proof.
  unfold Np.mean, Rdiv. apply Rmult_le_pos.
  - induction l as [|x l IH]; simpl; [lra|].
    pose proof (pow2_ge_0 (x - m)) as Hsq. simpl in Hsq.
    fold (Np.sum (map (fun x => (x - m) ^ 2) l)) in *. simpl in IH. lra.
  - rewrite length_map.
    destruct l as [|x l]; [simpl; rewrite Rinv_0; lra|].
    left. apply Rinv_0_lt_compat, lt_0_INR. simpl; lia.
Qed.

Lemma std_scale (l : list R) a :
  0 <= a -> Np.std (map (fun x => a * x) l) = a * Np.std l.
Proof.
  intros Ha. rewrite !Np_std_sq, mean_scale, map_map.
  replace (map (fun x => (a * x - a * Np.mean l) ^ 2) l)
    with (map (fun x => a ^ 2 * x) (map (fun x => (x - Np.mean l) ^ 2) l)).
  - rewrite mean_scale.
    rewrite sqrt_mult; [|apply pow2_ge_0|apply mean_squares_nonneg].
    rewrite sqrt_pow2 by exact Ha. reflexivity.
  - rewrite map_map. apply map_ext. intros x. ring.
Qed.

Lemma norm_pdf_scale x mu s a :
  a <> 0 -> norm_pdf (a * x) (a * mu) (a * s) = norm_pdf x mu s / a.
Proof.
  intros Ha. unfold norm_pdf.
  replace ((a * x - a * mu) / (a * s)) with ((x - mu) / s).
  - unfold Rdiv. rewrite Rinv_mult. ring.
  - unfold Rdiv. rewrite Rinv_mult.
    replace ((a * x - a * mu) * (/ a * / s))
      with ((a * / a) * ((x - mu) * / s)) by ring.
    rewrite Rinv_r by exact Ha. ring.
Qed.

Lemma norm_logpdf_scale x mu s a :
  0 < a -> 0 < s ->
  norm_logpdf (a * x) (a * mu) (a * s) = norm_logpdf x mu s - ln a.
Proof.
  intros Ha Hs. unfold norm_logpdf.
  replace ((a * x - a * mu) / (a * s)) with ((x - mu) / s).
  - rewrite ln_mult by assumption. ring.
  - unfold Rdiv. rewrite Rinv_mult.
    replace ((a * x - a * mu) * (/ a * / s))
      with ((a * / a) * ((x - mu) * / s)) by ring.
    rewrite Rinv_r by lra. ring.
Qed.

Lemma scale_length (data : list (list R)) : length (sc data) = length data.
Proof. unfold scale_features. apply length_map. Qed.

Variable data : list (list R).
Hypothesis width_ok : Forall (fun row => length row = 4%nat) data.

Lemma params_M_scale :
  pS0 (sc data) = pS0 data
  /\ mu_HS0 (sc data) = aH * mu_HS0 data
  /\ std_HS0 (sc data) = aH * std_HS0 data
  /\ mu_WS0 (sc data) = aW * mu_WS0 data
  /\ std_WS0 (sc data) = aW * std_WS0 data
  /\ mu_FS0 (sc data) = aF * mu_FS0 data
  /\ std_FS0 (sc data) = aF * std_FS0 data.
Proof.
  unfold pS0, mu_HS0, std_HS0, mu_WS0, std_WS0, mu_FS0, std_FS0, dataM in *.
  rewrite rows_where_scale, !scale_length.
  destruct (cols_scale (rows_where 0 0 data)
              (rows_where_width 0 data width_ok)) as (-> & -> & ->).
  rewrite !mean_scale, !std_scale by lra.
  repeat split.
Qed.

Lemma params_F_scale :
  pS1 (sc data) = pS1 data
  /\ mu_HS1 (sc data) = aH * mu_HS1 data
  /\ std_HS1 (sc data) = aH * std_HS1 data
  /\ mu_WS1 (sc data) = aW * mu_WS1 data
  /\ std_WS1 (sc data) = aW * std_WS1 data
  /\ mu_FS1 (sc data) = aF * mu_FS1 data
  /\ std_FS1 (sc data) = aF * std_FS1 data.
Proof.
  unfold pS1, mu_HS1, std_HS1, mu_WS1, std_WS1, mu_FS1, std_FS1, dataF in *.
  rewrite rows_where_scale, !scale_length.
  destruct (cols_scale (rows_where 0 1 data)
              (rows_where_width 1 data width_ok)) as (-> & -> & ->).
  rewrite !mean_scale, !std_scale by lra.
  repeat split.
Qed.

End Scale.

(** X22: measuring the features in other units, in the data and in the
    input alike, divides both scores by the product of the three factors
    and lowers both log-scores by its logarithm; the two probabilities do
    not change. *)
Theorem scores_scale (aH aW aF : R) (data : list (list R)) (H W F : R) :
  0 < aH -> 0 < aW -> 0 < aF ->
  Forall (fun row => length row = 4%nat) data ->
  estimable data ->
  let data' := scale_features aH aW aF data in
  let k := aH * aW * aF in
  score_M data' (aH * H) (aW * W) (aF * F) = score_M data H W F / k
  /\ score_F data' (aH * H) (aW * W) (aF * F) = score_F data H W F / k
  /\ log_score_M data' (aH * H) (aW * W) (aF * F)
     = log_score_M data H W F - ln k
  /\ log_score_F data' (aH * H) (aW * W) (aF * F)
     = log_score_F data H W F - ln k
  /\ proba_M data' (aH * H) (aW * W) (aF * F) = proba_M data H W F
  /\ proba_F data' (aH * H) (aW * W) (aF * F) = proba_F data H W F.
Proof.
  intros HaH HaW HaF Hw Hest data' k.
  destruct (params_M_scale aH aW aF HaH HaW HaF data Hw)
    as (P0 & M1 & S1 & M2 & S2 & M3 & S3).
  destruct (params_F_scale aH aW aF HaH HaW HaF data Hw)
    as (P1 & M4 & S4 & M5 & S5 & M6 & S6).
  destruct (estimable_factors data Hest)
    as (_ & _ & T1 & T2 & T3 & T4 & T5 & T6).
  destruct (estimable_scores_pos data Hest H W F) as [HM HF].
  assert (Hk : 0 < k) by (unfold k; repeat apply Rmult_lt_0_compat; assumption).
  assert (EM : score_M data' (aH * H) (aW * W) (aF * F)
               = score_M data H W F / k).
  { unfold score_M, data', k. rewrite P0, M1, S1, M2, S2, M3, S3.
    rewrite !norm_pdf_scale by lra. field. repeat split; lra. }
  assert (EF : score_F data' (aH * H) (aW * W) (aF * F)
               = score_F data H W F / k).
  { unfold score_F, data', k. rewrite P1, M4, S4, M5, S5, M6, S6.
    rewrite !norm_pdf_scale by lra. field. repeat split; lra. }
  assert (Hlnk : ln k = ln aH + ln aW + ln aF).
  { unfold k. rewrite !ln_mult; try assumption; [reflexivity|].
    apply Rmult_lt_0_compat; assumption. }
  split; [exact EM|]. split; [exact EF|]. split; [|split; [|split]].
  - unfold log_score_M, data'. rewrite P0, M1, S1, M2, S2, M3, S3.
    rewrite !norm_logpdf_scale by assumption. rewrite Hlnk. ring.
  - unfold log_score_F, data'. rewrite P1, M4, S4, M5, S5, M6, S6.
    rewrite !norm_logpdf_scale by assumption. rewrite Hlnk. ring.
  - unfold proba_M. rewrite EM, EF. field. split; lra.
  - unfold proba_F. rewrite EM, EF. field. split; lra.
Qed.

(** Heights in centimetres, weights in grams, foot sizes in metres. *)
Lemma scores_scale_witness :
  proba_F (scale_features 100 1000 (1 / 100) sex_classif)
    (100 * 1.81) (1000 * 59) (1 / 100 * 21)
  = proba_F sex_classif 1.81 59 21.
Proof.
  apply (scores_scale 100 1000 (1 / 100) sex_classif 1.81 59 21);
    try lra.
  - unfold sex_classif. repeat constructor.
  - apply sex_classif_estimable.
Defined.

(** *** The most typical individual *)

Lemma norm_logpdf_max x mu s : norm_logpdf x mu s <= norm_logpdf mu mu s.
Proof.
  unfold norm_logpdf, norm_logpdf_std.
  replace ((mu - mu) / s) with 0 by (unfold Rdiv; ring).
  pose proof (pow2_ge_0 ((x - mu) / s)). lra.
Qed.

Lemma norm_pdf_max x mu s : 0 <= s -> norm_pdf x mu s <= norm_pdf mu mu s.
Proof.
  intros Hs. unfold norm_pdf, norm_pdf_std.
  replace ((mu - mu) / s) with 0 by (unfold Rdiv; ring).
  assert (He : exp (- ((x - mu) / s) ^ 2 / 2) <= exp (- 0 ^ 2 / 2)).
  { pose proof (pow2_ge_0 ((x - mu) / s)) as Hsq.
    destruct (Req_dec (((x - mu) / s) ^ 2) 0) as [E|E].
    - rewrite E. right. f_equal. lra.
    - left. apply exp_increasing. lra. }
  assert (Hinv : 0 <= / s).
  { destruct Hs as [Hs|<-]; [left; apply Rinv_0_lt_compat; exact Hs|].
    rewrite Rinv_0; lra. }
  unfold Rdiv. apply Rmult_le_compat_r; [exact Hinv|].
  apply Rmult_le_compat_r; [|exact He].
  left. apply Rinv_0_lt_compat. apply sqrt_2PI_pos.
Qed.

(** X23: where the estimates are defined no input scores higher for a class
    than the vector of the feature means of that class, in score and in
    log-score. *)
Theorem class_means_score_highest (data : list (list R)) (H W F : R) :
  estimable data ->
  score_M data H W F
    <= score_M data (mu_HS0 data) (mu_WS0 data) (mu_FS0 data)
  /\ score_F data H W F
       <= score_F data (mu_HS1 data) (mu_WS1 data) (mu_FS1 data)
  /\ log_score_M data H W F
       <= log_score_M data (mu_HS0 data) (mu_WS0 data) (mu_FS0 data)
  /\ log_score_F data H W F
       <= log_score_F data (mu_HS1 data) (mu_WS1 data) (mu_FS1 data).
Proof.
  intros Hest.
  destruct (estimable_factors data Hest)
    as (P0 & P1 & S1 & S2 & S3 & S4 & S5 & S6).
  assert (Hprod : forall p a b c a' b' c',
             0 <= p -> 0 <= a <= a' -> 0 <= b <= b' -> 0 <= c <= c' ->
             p * a * b * c <= p * a' * b' * c').
  { intros p a b c a' b' c' Hp Ha Hb Hc.
    apply Rmult_le_compat; try tauto.
    - apply Rmult_le_pos; [apply Rmult_le_pos|]; tauto.
    - apply Rmult_le_compat; try tauto.
      + apply Rmult_le_pos; tauto.
      + apply Rmult_le_compat_l; tauto. }
  assert (Hpdf : forall x mu s, 0 < s ->
             0 <= norm_pdf x mu s <= norm_pdf mu mu s).
  { intros x mu s Hs. split; [left; apply norm_pdf_pos; exact Hs|].
    apply norm_pdf_max; lra. }
  split; [|split; [|split]].
  - unfold score_M. apply Hprod; try apply Hpdf; try assumption; lra.
  - unfold score_F. apply Hprod; try apply Hpdf; try assumption; lra.
  - unfold log_score_M.
    pose proof (norm_logpdf_max H (mu_HS0 data) (std_HS0 data)).
    pose proof (norm_logpdf_max W (mu_WS0 data) (std_WS0 data)).
    pose proof (norm_logpdf_max F (mu_FS0 data) (std_FS0 data)). lra.
  - unfold log_score_F.
    pose proof (norm_logpdf_max H (mu_HS1 data) (std_HS1 data)).
    pose proof (norm_logpdf_max W (mu_WS1 data) (std_WS1 data)).
    pose proof (norm_logpdf_max F (mu_FS1 data) (std_FS1 data)). lra.
Qed.

Lemma class_means_score_highest_witness :
  log_score_F sex_classif 1.81 59 21
  <= log_score_F sex_classif (mu_HS1 sex_classif) (mu_WS1 sex_classif)
       (mu_FS1 sex_classif).
Proof.
  apply (class_means_score_highest sex_classif 1.81 59 21).
  apply sex_classif_estimable.
Defined.

(** *** Average and spread of the trial scores *)






End NBMore.

